(** * yokto.js: selector cache, selection entry point and hash router

    A shallow embedding of the parts of [src/yokto.js] that carry state:
    the [LRUCache] class and its global instance [_$], the cache-clearing
    [MutationObserver] [o], the selection entry point [$] and the hash
    router [$h] with its [handleHash] dispatcher. *)

From Stdlib Require Import String Ascii List Bool Arith ZArith Lia.
From stdpp Require Import base gmap strings list.
Import ListNotations.
Open Scope string_scope.

(* ================================================================== *)
(** ** JavaScript [Map] with string keys

    A [Map] is kept as its entries in insertion order.  [Map.prototype.set]
    on a present key updates the value in place (the key keeps its
    position); on an absent key it appends.  [delete] removes the key. *)
Module JsMap.
Section JsMap.
Context {V : Type}.

Definition t := list (string * V).

Definition has (m : t) (k : string) : bool :=
  existsb (fun e => String.eqb (fst e) k) m.

Fixpoint get (m : t) (k : string) : option V :=
  match m with
  | [] => None
  | (k', v) :: m' => if String.eqb k' k then Some v else get m' k
  end.

Fixpoint set (m : t) (k : string) (v : V) : t :=
  match m with
  | [] => [(k, v)]
  | (k', v') :: m' =>
      if String.eqb k' k then (k', v) :: m' else (k', v') :: set m' k v
  end.

Definition delete (m : t) (k : string) : t :=
  List.filter (fun e => negb (String.eqb (fst e) k)) m.

Definition size (m : t) : nat := length m.

Definition keys (m : t) : list string := map fst m.

End JsMap.
End JsMap.
Arguments JsMap.t : clear implicits.

(* ================================================================== *)
(** ** [class LRUCache] (src/yokto.js, lines 119-144)

<<
    get(key) {
        if (!this.cache.has(key)) return undefined;
        const value = this.cache.get(key);
        this.cache.delete(key);
        this.cache.set(key, value);
        return value;
    }
    set(key, value) {
        if (this.cache.has(key)) this.cache.delete(key);
        this.cache.set(key, value);
        if (this.cache.size > this.max) {
            this.cache.delete(this.cache.keys().next().value);
        }
    }
>>
    The capacity [max] is a natural number (the global instance uses
    [yokto.config.MAX_CACHE_SIZE || 100] = 100).  [get] returns the value
    ([None] for [undefined]) together with the updated cache. *)
Module LRU.
Section LRU.
Context {V : Type}.

Record LRUCache := mkLRU { max : nat; cache : JsMap.t V }.

Definition create (max : nat) : LRUCache := mkLRU max [].

Definition get (key : string) (c : LRUCache) : option V * LRUCache :=
  if negb (JsMap.has (cache c) key) then (None, c)
  else match JsMap.get (cache c) key with
       | Some value =>
           let m1 := JsMap.delete (cache c) key in
           (Some value, mkLRU (max c) (JsMap.set m1 key value))
       | None => (None, c)  (* unreachable: [has] holds *)
       end.

(** [this.cache.keys().next().value] is the first key in insertion
    order; on an empty map it is [undefined] and the delete does nothing. *)
Definition evict_first (m : JsMap.t V) : JsMap.t V :=
  match m with
  | (k, _) :: _ => JsMap.delete m k
  | [] => m
  end.

Definition set (key : string) (value : V) (c : LRUCache) : LRUCache :=
  let m1 := if JsMap.has (cache c) key then JsMap.delete (cache c) key
            else cache c in
  let m2 := JsMap.set m1 key value in
  if Nat.ltb (max c) (JsMap.size m2) then mkLRU (max c) (evict_first m2)
  else mkLRU (max c) m2.

Definition delete (key : string) (c : LRUCache) : LRUCache :=
  mkLRU (max c) (JsMap.delete (cache c) key).

Definition clear (c : LRUCache) : LRUCache := mkLRU (max c) [].

(** A sequence of calls on one cache object. *)
Inductive op :=
| OGet (k : string)
| OSet (k : string) (v : V)
| ODelete (k : string)
| OClear.

Definition step (o : op) (c : LRUCache) : LRUCache :=
  match o with
  | OGet k => snd (get k c)
  | OSet k v => set k v c
  | ODelete k => delete k c
  | OClear => clear c
  end.

Definition run (ops : list op) (c : LRUCache) : LRUCache :=
  fold_left (fun c o => step o c) ops c.

End LRU.
End LRU.
Arguments LRU.LRUCache : clear implicits.
Arguments LRU.op : clear implicits.

(* ================================================================== *)
(** ** The selection entry point [$] (src/yokto.js, lines 161-193)

    Objects of the JavaScript heap that matter here are the result arrays
    [nodes]; the cache [_$] maps a selector to [new WeakRef(nodes)], which
    we represent by the heap address of [nodes].  [heap] holds the arrays
    that are still reachable: the garbage collector, an external agent,
    may remove an address, after which [WeakRef.prototype.deref] yields
    [undefined]. *)
Module Select.

Record World (Elem : Type) := mkWorld {
  wcache : LRU.LRUCache nat;      (* the global [_$] *)
  heap : gmap nat (list Elem);     (* live arrays *)
  next_obj : nat                   (* next fresh address *)
}.
Arguments mkWorld {Elem}.
Arguments wcache {Elem}.
Arguments heap {Elem}.
Arguments next_obj {Elem}.

(** What [$] returns: [null], [undefined] (from [nodes[0]] on an empty
    array), one element, or an array (by address). *)
Inductive RetVal (Elem : Type) :=
| RNull | RUndefined | RElem (e : Elem) | RArr (a : nat).
Arguments RNull {Elem}. Arguments RUndefined {Elem}.
Arguments RElem {Elem}. Arguments RArr {Elem}.

Inductive Outcome (Elem : Type) :=
| Ret (v : RetVal Elem)
| Throw.   (* [throw new Error(`Invalid CSS selector: ...`)] *)
Arguments Ret {Elem}. Arguments Throw {Elem}.

Section Dollar.
Context {Scope Elem : Type}.
(** [scope.querySelectorAll(query)]: [None] when it throws (bad selector,
    or a scope without [querySelectorAll]). *)
Variable querySelectorAll : Scope -> string -> option (list Elem).
(** [el instanceof Element] *)
Variable is_element : Elem -> bool.

Definition set_cache (w : World Elem) (c : LRU.LRUCache nat) : World Elem :=
  mkWorld c (heap w) (next_obj w).

(** [Array.from(elems).filter(...)] allocates a fresh array. *)
Definition alloc (nodes : list Elem) (w : World Elem) : nat * World Elem :=
  (next_obj w,
   mkWorld (wcache w) (<[next_obj w := nodes]> (heap w)) (S (next_obj w))).

(** [arr[0]] *)
Definition first_or_undefined (l : list Elem) : RetVal Elem :=
  match l with e :: _ => RElem e | [] => RUndefined end.

(** The part of [$] after the cache lookup, from [let elems;] on. *)
Definition dollar_query (query : string) (return_list useCache : bool)
    (scope : Scope) (w : World Elem) : Outcome Elem * World Elem :=
  match querySelectorAll scope query with
  | None => (Throw, w)
  | Some elems =>
      if Nat.eqb (length elems) 0 && negb return_list then (Ret RNull, w)
      else
        let nodes := List.filter is_element elems in
        let (a, w1) := alloc nodes w in
        let w2 := if useCache then set_cache w1 (LRU.set query a (wcache w1))
                  else w1 in
        if Nat.eqb (length elems) 1 && negb return_list
        then (Ret (first_or_undefined nodes), w2)
        else (Ret (RArr a), w2)
  end.

(** [$(query, return_list, useCache, scope)] *)
Definition dollar (query : string) (return_list useCache : bool)
    (scope : Scope) (w : World Elem) : Outcome Elem * World Elem :=
  if useCache then
    let (cachedRef, c1) := LRU.get query (wcache w) in
    let w1 := set_cache w c1 in
    match cachedRef with
    | Some ref =>
        match heap w1 !! ref with
        | Some cached =>
            if Nat.eqb (length cached) 1 && negb return_list
            then (Ret (first_or_undefined cached), w1)
            else (Ret (RArr ref), w1)
        | None =>
            (* Clean stale WeakRef *)
            dollar_query query return_list useCache scope
              (set_cache w1 (LRU.delete query c1))
        end
    | None => dollar_query query return_list useCache scope w1
    end
  else dollar_query query return_list useCache scope w.

End Dollar.
End Select.

(* ================================================================== *)
(** ** The cache-invalidating observer [o] (src/yokto.js, lines 147-151)

<<
    const o = new MutationObserver(() => _$.clear());
    if (yokto.config.observeDOM && $doc && $doc.body) {
        o.observe($doc.body, { childList: true, subtree: true });
    }
>>
    Nodes are numbered; a document state gives each attached node its
    parent and names [document.body] (absent while the parser has not
    reached [<body>]). *)
Module Observe.

Record Config := mkConfig { observeDOM : bool; MAX_CACHE_SIZE : nat }.

(** [yokto.config] as the library defines it before [o] is set up. *)
Definition yokto_config : Config := mkConfig true 100.

(** [const _$ = new LRUCache(yokto.config.MAX_CACHE_SIZE || 100);] *)
Definition initial_cache : LRU.LRUCache nat :=
  LRU.create (match MAX_CACHE_SIZE yokto_config with 0 => 100 | n => n end).

Record Doc := mkDoc { parent_of : list (nat * nat); body : option nat }.

Fixpoint parent (l : list (nat * nat)) (n : nat) : option nat :=
  match l with
  | [] => None
  | (c, p) :: l' => if Nat.eqb c n then Some p else parent l' n
  end.

(** [root] is an inclusive ancestor of [n]. *)
Fixpoint inclusive_ancestor (fuel : nat) (d : Doc) (root n : nat) : bool :=
  Nat.eqb n root ||
  match fuel with
  | 0 => false
  | S f => match parent (parent_of d) n with
           | Some p => inclusive_ancestor f d root p
           | None => false
           end
  end.

Inductive MutType := ChildList | Attributes | CharacterData.

Record MutationRecord := mkRecord { mtype : MutType; mtarget : nat }.

(** The node [o] observes, fixed when the module is evaluated. *)
Definition observed_root (cfg : Config) (d_at_load : Doc) : option nat :=
  if observeDOM cfg then body d_at_load else None.

(** The DOM's "queue a mutation record" for an observer registered on
    [root] with [{childList: true, subtree: true}]: the record is queued
    when [root] is an inclusive ancestor of the target (subtree) and the
    record is of type [childList] (no [attributes]/[characterData]
    option).  [d] is the document when the mutation happens. *)
Definition interested (root : nat) (d : Doc) (r : MutationRecord) : bool :=
  inclusive_ancestor (length (parent_of d)) d root (mtarget r) &&
  match mtype r with ChildList => true | _ => false end.

(** Delivery of a batch of mutations: the callback [() => _$.clear()]
    runs when at least one record was queued for [o]. *)
Definition deliver {V} (root : option nat) (batch : list (Doc * MutationRecord))
    (c : LRU.LRUCache V) : LRU.LRUCache V :=
  match root with
  | Some rt =>
      if existsb (fun '(d, r) => interested rt d r) batch then LRU.clear c else c
  | None => c
  end.

End Observe.

(* ================================================================== *)
(** ** A backtracking engine for the regular expressions [$h] builds

    [new RegExp(src)] and [String.prototype.match] (non-global, i.e.
    [RegExp.prototype.exec] from index 0) for the fragment of the
    ECMAScript pattern syntax that [$h]'s compiler produces: literal
    characters, identity escapes [\/] and [\.], [.], negated classes
    [[^...]], capturing groups, greedy [*] and [+], and the assertions
    [^] and [$].  The parser answers [None] on everything else (this
    covers both real syntax errors and syntax outside the fragment). *)
Module JsRegExp.

Inductive node :=
| REmpty
| RSeq (a b : node)
| RChar (c : ascii)
| RAny
| RNotSet (cs : list ascii)
| RGroup (n : nat) (a : node)     (* capture group number [n] (from 1) *)
| RStar (a : node)                (* greedy [a*] *)
| RBol                            (* [^], no [m] flag *)
| REol.                           (* [$], no [m] flag *)

Definition is_line_terminator (c : ascii) : bool :=
  Ascii.eqb c "010"%char || Ascii.eqb c "013"%char.

Definition is_alnum (c : ascii) : bool :=
  let n := nat_of_ascii c in
  (Nat.leb 48 n && Nat.leb n 57) || (Nat.leb 65 n && Nat.leb n 90) ||
  (Nat.leb 97 n && Nat.leb n 122) || Nat.eqb n 95.

(** Characters that cannot start an atom of the fragment. *)
Definition is_special (c : ascii) : bool :=
  existsb (Ascii.eqb c) ["*"; "+"; "?"; "{"; "}"; "|"; ")"; "]"]%char.

(** Body of a negated class, up to the closing [']']. *)
Fixpoint parse_class (s : list ascii) : option (list ascii * list ascii) :=
  match s with
  | [] => None
  | c :: s' =>
      if Ascii.eqb c "]" then Some ([], s')
      else if Ascii.eqb c "\" then
        match s' with
        | d :: s'' =>
            if is_alnum d then None
            else match parse_class s'' with
                 | Some (cs, r) => Some (d :: cs, r) | None => None end
        | [] => None
        end
      else match parse_class s' with
           | Some (cs, r) => Some (c :: cs, r) | None => None end
  end.

(** A quantifier after an atom; [+] is [a a*]. *)
Definition postfix (a : node) (s : list ascii) : option (node * list ascii) :=
  match s with
  | c :: s' =>
      let quantifiable := match a with RBol | REol => false | _ => true end in
      if Ascii.eqb c "*" then
        (if quantifiable then
           match s' with
           | d :: _ => if Ascii.eqb d "?" then None else Some (RStar a, s')
           | [] => Some (RStar a, s')
           end
         else None)
      else if Ascii.eqb c "+" then
        (if quantifiable then
           match s' with
           | d :: _ => if Ascii.eqb d "?" then None else Some (RSeq a (RStar a), s')
           | [] => Some (RSeq a (RStar a), s')
           end
         else None)
      else if Ascii.eqb c "?" || Ascii.eqb c "{" then None
      else Some (a, s)
  | [] => Some (a, s)
  end.

(** [g] is the number the next group gets. *)
Fixpoint parse_seq (fuel g : nat) (s : list ascii)
    : option (node * nat * list ascii) :=
  match fuel with
  | 0 => None
  | S f =>
      match s with
      | [] => Some (REmpty, g, [])
      | c :: _ =>
          if Ascii.eqb c ")" then Some (REmpty, g, s)
          else match parse_atom f g s with
               | Some (a, g1, s1) =>
                   match postfix a s1 with
                   | Some (a', s2) =>
                       match parse_seq f g1 s2 with
                       | Some (rest, g2, s3) => Some (RSeq a' rest, g2, s3)
                       | None => None
                       end
                   | None => None
                   end
               | None => None
               end
      end
  end
with parse_atom (fuel g : nat) (s : list ascii)
    : option (node * nat * list ascii) :=
  match fuel with
  | 0 => None
  | S f =>
      match s with
      | [] => None
      | c :: s' =>
          if Ascii.eqb c "\" then
            match s' with
            | d :: s'' => if is_alnum d then None else Some (RChar d, g, s'')
            | [] => None
            end
          else if Ascii.eqb c "(" then
            match s' with
            | d :: _ => if Ascii.eqb d "?" then None else
                match parse_seq f (S g) s' with
                | Some (inner, g1, e :: s'') =>
                    if Ascii.eqb e ")" then Some (RGroup g inner, g1, s'')
                    else None
                | _ => None
                end
            | [] => None
            end
          else if Ascii.eqb c "[" then
            match s' with
            | d :: s'' =>
                if Ascii.eqb d "^" then
                  match parse_class s'' with
                  | Some (cs, s3) => Some (RNotSet cs, g, s3)
                  | None => None
                  end
                else None
            | [] => None
            end
          else if Ascii.eqb c "." then Some (RAny, g, s')
          else if Ascii.eqb c "^" then Some (RBol, g, s')
          else if Ascii.eqb c "$" then Some (REol, g, s')
          else if is_special c then None
          else Some (RChar c, g, s')
      end
  end.

(** A whole pattern and its number of capture groups. *)
Definition parse (src : string) : option (node * nat) :=
  let s := list_ascii_of_string src in
  match parse_seq (S (length s)) 1 s with
  | Some (r, g, []) => Some (r, pred g)
  | _ => None
  end.

Definition caps := list (option string).

Definition set_cap (n : nat) (v : option string) (cs : caps) : caps :=
  <[pred n := v]> cs.

Section Matcher.
(** Length of the whole subject string, for [^]. *)
Variable total : nat.

(** Continuation-passing backtracking matcher on the remaining input.
    A [*] iteration that consumes nothing fails, as in the standard's
    RepeatMatcher.  (The standard also resets the captures of the
    repeated atom before each iteration; in this fragment every group
    inside an atom takes part in each iteration that succeeds, so the
    reset never shows in a result.) *)
Fixpoint m (r : node) (s : list ascii) (cs : caps)
    (k : list ascii -> caps -> option (list ascii * caps))
    : option (list ascii * caps) :=
  match r with
  | REmpty => k s cs
  | RSeq a b => m a s cs (fun s1 cs1 => m b s1 cs1 k)
  | RChar c =>
      match s with
      | c' :: s' => if Ascii.eqb c c' then k s' cs else None
      | [] => None
      end
  | RAny =>
      match s with
      | c' :: s' => if is_line_terminator c' then None else k s' cs
      | [] => None
      end
  | RNotSet l =>
      match s with
      | c' :: s' => if existsb (Ascii.eqb c') l then None else k s' cs
      | [] => None
      end
  | RGroup n a =>
      m a s cs (fun s1 cs1 =>
        k s1 (set_cap n
                (Some (string_of_list_ascii (firstn (length s - length s1) s)))
                cs1))
  | RStar a =>
      (fix star (fuel : nat) (s : list ascii) (cs : caps) :=
         match fuel with
         | 0 => k s cs
         | S f =>
             match m a s cs (fun s1 cs1 =>
                     if Nat.ltb (length s1) (length s) then star f s1 cs1
                     else None) with
             | Some x => Some x
             | None => k s cs
             end
         end) (S (length s)) s cs
  | RBol => if Nat.eqb (length s) total then k s cs else None
  | REol => match s with [] => k s cs | _ => None end
  end.

End Matcher.

(** Try each start index in turn; the match array is
    [[whole match, capture 1, ...]]. *)
Fixpoint scan (total : nat) (r : node) (ng : nat) (s : list ascii)
    : option caps :=
  match m total r s (repeat None ng) (fun s1 cs1 => Some (s1, cs1)) with
  | Some (s1, cs) =>
      Some (Some (string_of_list_ascii (firstn (length s - length s1) s)) :: cs)
  | None =>
      match s with
      | [] => None
      | _ :: s' => scan total r ng s'
      end
  end.

(** [new RegExp(src)] does not throw. *)
Definition valid (src : string) : bool :=
  match parse src with Some _ => true | None => false end.

(** [input.match(new RegExp(src))]: [None] is [null]. *)
Definition exec (src input : string) : option caps :=
  match parse src with
  | Some (r, ng) =>
      let s := list_ascii_of_string input in
      scan (length s) r ng s
  | None => None
  end.

End JsRegExp.

(* ================================================================== *)
(** ** The hash router [$h] (src/yokto.js, lines 793-867) *)
Module Router.

(** The JavaScript values [$h] can be called with; functions are known
    by an identity. *)
Inductive jsval :=
| JUndefined | JNull | JBool (b : bool) | JNumber (n : nat)
| JString (s : string) | JFunction (f : nat) | JObject (o : nat).

Definition typeof (v : jsval) : string :=
  match v with
  | JUndefined => "undefined" | JNull => "object" | JBool _ => "boolean"
  | JNumber _ => "number" | JString _ => "string"
  | JFunction _ => "function" | JObject _ => "object"
  end.

(** Assignment [obj[k] = v] on a fresh object literal [{}]: the key
    ["__proto__"] hits [Object.prototype]'s setter, which ignores a
    value that is not an object, so nothing is stored. *)
Definition obj_set {A} (o : gmap string A) (k : string) (v : A) : gmap string A :=
  if String.eqb k "__proto__" then o else <[k := v]> o.

(** *** Route compilation *)

(** [[^\/]+] taken greedily: the longest prefix without ['/']. *)
Fixpoint take_seg (s : string) : string * string :=
  match s with
  | EmptyString => (EmptyString, EmptyString)
  | String c r =>
      if Ascii.eqb c "/" then (EmptyString, s)
      else let (a, b) := take_seg r in (String c a, b)
  end.

(** [route.replace(/\/:([^\/]+)/g, (_, name) => { paramNames.push(name);
    return '/([^\/]+)'; })]: scanning left to right, a match at the
    current index is replaced, otherwise one character is kept.  The
    returned string literal ['/([^\/]+)'] is the text "/([^/]+)". *)
Fixpoint replace_params (fuel : nat) (s : string) : string * list string :=
  match fuel with
  | 0 => (s, [])
  | S f =>
      match s with
      | EmptyString => (EmptyString, [])
      | String c r =>
          let keep := let (o, ns) := replace_params f r in (String c o, ns) in
          if Ascii.eqb c "/" then
            match r with
            | String d r' =>
                if Ascii.eqb d ":" then
                  let (name, rest) := take_seg r' in
                  if String.eqb name "" then keep
                  else let (o, ns) := replace_params f rest in
                       ("/([^/]+)" ++ o, name :: ns)
                else keep
            | EmptyString => keep
            end
          else keep
      end
  end.

(** [.replace(/X/g, Y)] for one character [X] and a literal [Y]. *)
Fixpoint replace_char (x : ascii) (y : string) (s : string) : string :=
  match s with
  | EmptyString => EmptyString
  | String c r =>
      if Ascii.eqb c x then y ++ replace_char x y r
      else String c (replace_char x y r)
  end.

(** [regexStr] and [paramNames]; the source given to [new RegExp] is
    [`^${regexStr}$`]. *)
Definition compile (route : string) : string * list string :=
  let (s1, paramNames) := replace_params (S (String.length route)) route in
  let s2 := replace_char "/" "\/" s1 in
  let s3 := replace_char "." "\." s2 in
  let s4 := replace_char "*" ".*" s3 in
  ("^" ++ s4 ++ "$", paramNames).

Record RouteDef := mkRoute {
  regex : string;               (* source of the [RegExp] *)
  callback : nat;
  paramNames : list string
}.

(** The properties the router keeps on the function object [$h]. *)
Record State := mkState {
  routes : option (JsMap.t RouteDef);   (* [$h.routes], created lazily *)
  defaultRoute : option nat;            (* [$h.defaultRoute] *)
  initialized : bool                    (* [$h.initialized] *)
}.

Definition init_state : State := mkState None None false.

(** Effects of the initialising call: [addEventListener('hashchange',
    handleHash)] and [$$(handleHash)].  The listener closes over the
    shared [routes] map and reads [$h.defaultRoute] when it runs. *)
Inductive Effect := AddHashchangeListener | RunOnReady.

Inductive RegResult :=
| Registered (st : State) (effs : list Effect)
| RegThrew (st : State) (msg : string).

(** The argument object [{ path, params, query }] of a callback. *)
Record CallArg := mkArg {
  arg_path : string;
  arg_params : gmap string (option string);   (* [None] is [undefined] *)
  arg_query : gmap string string
}.

(** A frame callback scheduled with [n(...)] (requestAnimationFrame):
    [TInvoke cb arg] calls the route callback [cb] bound by the
    dispatch; [TInvokeDefault arg] calls [$h.defaultRoute(arg)], whose
    value is read when the frame runs. *)
Inductive Task :=
| TInvoke (cb : nat) (arg : CallArg)
| TInvokeDefault (arg : CallArg).

Definition task_arg (t : Task) : CallArg :=
  match t with TInvoke _ a => a | TInvokeDefault a => a end.

(** *** URL fragment and query string *)

Definition strip_hash (h : string) : string :=
  match h with
  | String c r => if Ascii.eqb c "#" then r else h
  | EmptyString => h
  end.

(** [str.split(sep)] for a one-character separator. *)
Fixpoint split_on (sep : ascii) (s : string) : list string :=
  match s with
  | EmptyString => [EmptyString]
  | String c r =>
      if Ascii.eqb c sep then EmptyString :: split_on sep r
      else match split_on sep r with
           | x :: xs => String c x :: xs
           | [] => [String c EmptyString]
           end
  end.

(** The first index of a character, if any. *)
Fixpoint split_first (sep : ascii) (s : string) : option (string * string) :=
  match s with
  | EmptyString => None
  | String c r =>
      if Ascii.eqb c sep then Some (EmptyString, r)
      else match split_first sep r with
           | Some (a, b) => Some (String c a, b)
           | None => None
           end
  end.

Section Platform.
(** Percent-decoding followed by UTF-8 decoding, as the URL standard's
    [application/x-www-form-urlencoded] parser applies it. *)
Variable percent_decode : string -> string.

(** One name/value pair of the urlencoded parser. *)
Definition parse_pair (bytes : string) : string * string :=
  let (name, value) :=
    match split_first "=" bytes with
    | Some (a, b) => (a, b)
    | None => (bytes, EmptyString)
    end in
  (percent_decode (replace_char "+" " " name),
   percent_decode (replace_char "+" " " value)).

(** [new URLSearchParams(init)] for a string [init]: a leading ['?'] is
    dropped, the rest is split on ['&'], empty pieces are skipped. *)
Definition url_search_params (init : string) : list (string * string) :=
  let s := match init with
           | String c r => if Ascii.eqb c "?" then r else init
           | EmptyString => init
           end in
  map parse_pair (List.filter (fun p => negb (String.eqb p EmptyString)) (split_on "&" s)).

(** [.forEach((value, key) => { query[key] = value; })] *)
Definition build_query (queryStr : string) : gmap string string :=
  fold_left (fun q '(k, v) => obj_set q k v) (url_search_params queryStr) ∅.

(** [pn.forEach((name, i) => { params[name] = match[i + 1]; })]; an index
    past the end of the match array reads [undefined]. *)
Definition build_params (pn : list string) (mt : JsRegExp.caps)
    : gmap string (option string) :=
  fold_left (fun p '(i, name) => obj_set p name (nth (S i) mt None))
    (combine (seq 0 (length pn)) pn) ∅.

(** The regular-expression operations of the platform. *)
Variable re_valid : string -> bool.
Variable re_exec : string -> string -> option JsRegExp.caps.

(** [$h(route, callback)] *)
Definition register (route callback : jsval) (st : State) : RegResult :=
  let rmap := match routes st with Some m => m | None => [] end in
  let st1 := mkState (Some rmap) (defaultRoute st) (initialized st) in
  match route with
  | JFunction f => Registered (mkState (Some rmap) (Some f) (initialized st)) []
  | _ =>
      match route, callback with
      | JString p, JFunction cb =>
          let (src, pn) := compile p in
          if re_valid src then
            let rmap' := JsMap.set rmap p (mkRoute src cb pn) in
            if initialized st1 then
              Registered (mkState (Some rmap') (defaultRoute st1) true) []
            else
              Registered (mkState (Some rmap') (defaultRoute st1) true)
                [AddHashchangeListener; RunOnReady]
          else RegThrew st1 "SyntaxError"
      | _, _ => RegThrew st1 "Invalid route or callback"
      end
  end.

(** The [for ... of routes] loop up to its [break]. *)
Fixpoint find_route (rmap : JsMap.t RouteDef) (path : string)
    : option (RouteDef * JsRegExp.caps) :=
  match rmap with
  | [] => None
  | (_, d) :: rest =>
      match re_exec (regex d) path with
      | Some mt => Some (d, mt)
      | None => find_route rest path
      end
  end.

(** The first lines of [handleHash] with [$loc.hash = loc_hash]:
    [hash = $loc.hash.replace(/^#/, '') || '/'],
    [[path, queryStr] = hash.split('?')] and the [query] object built
    when [queryStr] is truthy. *)
Definition parse_hash (loc_hash : string) : string * gmap string string :=
  let h0 := strip_hash loc_hash in
  let hash := if String.eqb h0 EmptyString then "/" else h0 in
  let parts := split_on "?" hash in
  let path := nth 0 parts EmptyString in
  let query := match nth_error parts 1 with
               | Some qs => if String.eqb qs EmptyString then ∅ else build_query qs
               | None => ∅
               end in
  (path, query).

(** [handleHash] run with [$loc.hash = loc_hash]: the frame callbacks it
    schedules.  [dflt] is [$h.defaultRoute] at the time of the dispatch
    (only its truthiness is used here). *)
Definition handleHash (rmap : JsMap.t RouteDef) (dflt : option nat)
    (loc_hash : string) : list Task :=
  let path := fst (parse_hash loc_hash) in
  let query := snd (parse_hash loc_hash) in
  match find_route rmap path with
  | Some (d, mt) =>
      [TInvoke (callback d) (mkArg path (build_params (paramNames d) mt) query)]
  | None =>
      match dflt with
      | Some _ => [TInvokeDefault (mkArg path ∅ query)]
      | None => []
      end
  end.

(** A dispatch as the installed listener performs it on state [st]. *)
Definition dispatch (st : State) (loc_hash : string) : list Task :=
  handleHash (match routes st with Some m => m | None => [] end)
    (defaultRoute st) loc_hash.

(** A sequence of [$h] calls; a call that throws leaves the state it
    threw in. *)
Fixpoint register_all (calls : list (jsval * jsval)) (st : State) : State :=
  match calls with
  | [] => st
  | (r, cb) :: rest =>
      match register r cb st with
      | Registered st' _ => register_all rest st'
      | RegThrew st' _ => register_all rest st'
      end
  end.

End Platform.

(** *** Running the scheduled frame callbacks

    [n(() => { try { yokto.clearCache(); } catch(e){} cb({...}); })]
    with [yokto.clearCache = () => _$.clear()].  The callback body is
    application code; we record each invocation together with the
    contents of [_$] when it starts.  A frame runs with the router state
    [st] of its own time: the default callback is [$h.defaultRoute] as
    it is then; were it not a function, the call would throw a
    [TypeError] after the cache was cleared, and nothing is invoked. *)
Record World := mkWorld {
  rcache : LRU.LRUCache nat;
  invoked : list (nat * CallArg * JsMap.t nat)
}.

Definition run_task (st : State) (t : Task) (w : World) : World :=
  let c := LRU.clear (rcache w) in
  match t with
  | TInvoke cb arg => mkWorld c (invoked w ++ [(cb, arg, LRU.cache c)])
  | TInvokeDefault arg =>
      match defaultRoute st with
      | Some f => mkWorld c (invoked w ++ [(f, arg, LRU.cache c)])
      | None => mkWorld c (invoked w)
      end
  end.

(** The frames in the order they run, each with the router state at
    its time. *)
Definition run_tasks (frames : list (State * Task)) (w : World) : World :=
  fold_left (fun w '(st, t) => run_task st t w) frames w.

End Router.

(* ================================================================== *)
(** ** The element helpers [_], [$_], [$s] and [$c]
    (src/yokto.js, lines 205-356 and 660-790) *)
Module Dom.

(** A JavaScript number as the index checks of [$_], [$s] and [$c] see
    it: an integer, a finite non-integer [x] (given by [Z.floor x]),
    [NaN], or an infinity. *)
Inductive number :=
| NInt (z : Z)
| NFrac (fl : Z)
| NNaN
| NInf (positive : bool).

(** [index < 0] *)
Definition lt_zero (x : number) : bool :=
  match x with
  | NInt z => Z.ltb z 0
  | NFrac fl => Z.ltb fl 0
  | NNaN => false
  | NInf positive => negb positive
  end.

(** [index >= nodes.length] *)
Definition ge_len (x : number) (len : nat) : bool :=
  match x with
  | NInt z => Z.leb (Z.of_nat len) z
  | NFrac fl => Z.leb (Z.of_nat len) fl
  | NNaN => false
  | NInf positive => positive
  end.

(** [nodes[index]]: only an integer names an element of an array (the
    property key of a non-integer, of [NaN] or of an infinity is not an
    array index, and reads [undefined]). *)
Definition array_get {E} (nodes : list E) (x : number) : option E :=
  match x with
  | NInt z => if Z.leb 0 z then nth_error nodes (Z.to_nat z) else None
  | _ => None
  end.

(** The index step shared by [$_], [$s] and [$c]:
<<
    if (typeof index === "number") {
        if (index < 0 || index >= nodes.length) {
            throw new Error(`Invalid index ${index} for ${nodes.length} nodes`);
        }
        nodes = [nodes[index]].filter(Boolean);
    }
>>
    [index] is [None] when it is not a number; the answer is [None] when
    the step throws.  Elements are objects, hence truthy. *)
Definition select_index {E} (index : option number) (nodes : list E)
    : option (list E) :=
  match index with
  | None => Some nodes
  | Some x =>
      if lt_zero x || ge_len x (length nodes) then None
      else Some (match array_get nodes x with Some e => [e] | None => [] end)
  end.

(** The elements [$_(query, options)] and [$s(query, styles, index)] act
    on, from the array [nodes = $(query, true)]:
<<
    if (!nodes || !nodes.length) return;
    if (!Array.isArray(nodes)) nodes = [nodes];
>>
    followed by the index step. *)
Definition update_targets {E} (nodes : list E) (index : option number)
    : option (list E) :=
  match nodes with
  | [] => Some []
  | _ => select_index index nodes
  end.

(** The elements a chain [$c(selector, index)] holds:
<<
    if (!nodes || !nodes.length) nodes = [];
    if (!Array.isArray(nodes)) nodes = [nodes];
>>
    followed by the index step. *)
Definition chain_targets {E} (nodes : list E) (index : option number)
    : option (list E) :=
  select_index index (match nodes with [] => [] | _ => nodes end).

(** What [_(parentSelector, tag, attrs, innerText)] does. *)
Inductive AppendResult (Elem : Type) :=
| Appended (parent : Elem)   (* [parentElem.appendChild(elem)] *)
| NoParent                   (* [Parent Node/Element Doesn't Exist ...] *)
| NotANode                   (* [parentElem.appendChild] is not a function *)
| BadSelector                (* the error thrown by [$] *)
| BadElement.                (* the error thrown by [$t] *)
Arguments Appended {Elem}. Arguments NoParent {Elem}.
Arguments NotANode {Elem}. Arguments BadSelector {Elem}.
Arguments BadElement {Elem}.

Section Underscore.
Context {Scope Elem Val : Type}.
Variable querySelectorAll : Scope -> string -> option (list Elem).
Variable is_element : Elem -> bool.

(** The platform checks [$t] relies on: [document.createElement(tag)]
    throws unless [tag] is a valid element name, and
    [elem.setAttribute(key, value)] unless [key] is a valid attribute
    name; [attr_value_ok v] holds when reading [attrs[key]] and
    converting it to a string returns normally, [string_ok v] when
    [String(v)] does. *)
Variable valid_tag : string -> bool.
Variable valid_attr : string -> bool.
Variable attr_value_ok : Val -> bool.
Variable string_ok : Val -> bool.

(** Whether [$t(tag, attrs, innerText)] returns its new element rather
    than throwing.  [attrs] is [None] when [__(attrs)] is false, and
    otherwise the own enumerable properties the [for ... in] loop sets;
    [innerText] is [None] when it is [null] or [undefined].
<<
    let elem = $doc.createElement(tag);
    if (__(attrs)) { for (let key in attrs) {
        if (Object.prototype.hasOwnProperty.call(attrs, key)) {
            elem.setAttribute(key, attrs[key]); } } }
    if (innerText != null) { elem.innerText = String(innerText); }; return elem
>> *)
Definition dollar_t_ok (tag : string) (attrs : option (list (string * Val)))
    (innerText : option Val) : bool :=
  valid_tag tag &&
  match attrs with
  | Some kvs => forallb (fun kv => valid_attr (fst kv) && attr_value_ok (snd kv)) kvs
  | None => true
  end &&
  match innerText with Some v => string_ok v | None => true end.

(** [const parentElem = $(parentSelector);] ([return_list] and [useCache]
    take their defaults [false]), then [if (!parentElem) throw ...],
    [const elem = $t(tag, attrs, innerText);] and
    [parentElem.appendChild(elem)].  An array is truthy and has no
    [appendChild]. *)
Definition underscore (parentSelector : string) (tag : string)
    (attrs : option (list (string * Val))) (innerText : option Val) (doc : Scope)
    (w : Select.World Elem) : AppendResult Elem * Select.World Elem :=
  let (r, w1) := Select.dollar querySelectorAll is_element parentSelector
                   false false doc w in
  match r with
  | Select.Throw => (BadSelector, w1)
  | Select.Ret Select.RNull | Select.Ret Select.RUndefined => (NoParent, w1)
  | Select.Ret (Select.RElem e) =>
      (if dollar_t_ok tag attrs innerText then Appended e else BadElement, w1)
  | Select.Ret (Select.RArr _) =>
      (if dollar_t_ok tag attrs innerText then NotANode else BadElement, w1)
  end.

End Underscore.

(** [invalidateCache] of [$c], run by [.html], [.text], [.append] and
    [.prepend]:
<<
    if (_$.cache && _$.cache.has && _$.cache.has(selector)) _$.delete(selector);
>> *)
Definition invalidateCache (selector : string) (c : LRU.LRUCache nat)
    : LRU.LRUCache nat :=
  if JsMap.has (LRU.cache c) selector then LRU.delete selector c else c.

(** *** [setStylesOnEl] with a string: [styles.match(/^([^:]+):\s*(.+)$/)] *)

(** [\s] on the code units 0-255: TAB, LF, VT, FF, CR, SPACE, NBSP. *)
Definition is_js_space (c : ascii) : bool :=
  let n := nat_of_ascii c in
  (Nat.leb 9 n && Nat.leb n 13) || Nat.eqb n 32 || Nat.eqb n 160.

Fixpoint leading_space (s : string) : nat :=
  match s with
  | String c r => if is_js_space c then S (leading_space r) else 0
  | EmptyString => 0
  end.

Fixpoint sdrop (n : nat) (s : string) : string :=
  match n, s with
  | S n', String _ r => sdrop n' r
  | _, _ => s
  end.

(** [(.+)$]: at least one character and no line terminator. *)
Definition dot_plus_eol (v : string) : bool :=
  negb (String.eqb v EmptyString) &&
  forallb (fun c => negb (JsRegExp.is_line_terminator c)) (list_ascii_of_string v).

(** [\s*] is greedy: the engine tries [k] leading spaces, then [k - 1],
    and so on down to none. *)
Fixpoint backtrack_space (k : nat) (r : string) : option string :=
  if dot_plus_eol (sdrop k r) then Some (sdrop k r)
  else match k with
       | 0 => None
       | S k' => backtrack_space k' r
       end.

(** The two capture groups.  [[^:]+] followed by [:] can only be the
    whole text before the first [':']; shorter runs are followed by a
    character other than [':']. *)
Definition style_match (styles : string) : option (string * string) :=
  match Router.split_first ":" styles with
  | Some (prop, rest) =>
      if String.eqb prop EmptyString then None
      else match backtrack_space (leading_space rest) rest with
           | Some v => Some (prop, v)
           | None => None
           end
  | None => None
  end.

(** The style assignments [el.style[prop] = val] that
    [setStylesOnEl(el, styles)] schedules for a string [styles]. *)
Definition setStylesOnEl_string (styles : string) : list (string * string) :=
  match style_match styles with
  | Some (prop, v) => [(prop, v)]
  | None => []
  end.

End Dom.

(* ================================================================== *)
(** ** The redirector [$a] (src/yokto.js, lines 875-881)

<<
    const ec = '/'.replace(/[.*+?^${}()|[\]\\]/g, '\\$&');
    const re = new RegExp(`^[${ec}]+|[${ec}]+$`, 'g');
    route = route.replace(re, '');
    if ( ! route.startsWith('/') ) { route = '/' + route };
    $loc.hash = route
>> *)
Module Redirect.

Definition re_special (c : ascii) : bool :=
  existsb (Ascii.eqb c)
    ["."; "*"; "+"; "?"; "^"; "$"; "{"; "}"; "("; ")"; "|"; "["; "]"; "\"]%char.

(** [s.replace(/[.*+?^${}()|[\]\\]/g, '\\$&')] *)
Fixpoint escape_re (s : string) : string :=
  match s with
  | EmptyString => EmptyString
  | String c r =>
      if re_special c then String "\" (String c (escape_re r))
      else String c (escape_re r)
  end.

(** [ec]; it is ["/"], so [re] is [/^[/]+|[/]+$/g]. *)
Definition ec : string := escape_re "/".

Fixpoint slash_run (s : string) : nat :=
  match s with
  | String c r => if Ascii.eqb c "/" then S (slash_run r) else 0
  | EmptyString => 0
  end.

Fixpoint drop_slashes (s : string) : string :=
  match s with
  | String c r => if Ascii.eqb c "/" then drop_slashes r else s
  | EmptyString => s
  end.

Definition all_slashes (s : string) : bool :=
  forallb (fun c => Ascii.eqb c "/") (list_ascii_of_string s).

(** One attempt of [^[/]+|[/]+$] at a position ([at_start]: index 0);
    the answer is the input after the match.  The first alternative has
    nothing after its greedy run; the second matches only a run of ['/']
    that reaches the end. *)
Definition match_at (at_start : bool) (s : string) : option string :=
  if at_start && Nat.ltb 0 (slash_run s) then Some (drop_slashes s)
  else if negb (String.eqb s EmptyString) && all_slashes s then Some EmptyString
  else None.

(** [route.replace(re, '')] with the [g] flag: left to right, a match is
    removed and the search goes on after it, otherwise one character is
    kept.  Each round consumes a character, so [length s + 1] rounds
    suffice. *)
Fixpoint replace_all (fuel : nat) (at_start : bool) (s : string) : string :=
  match fuel with
  | 0 => s
  | S f =>
      match match_at at_start s with
      | Some rest => replace_all f false rest
      | None =>
          match s with
          | EmptyString => EmptyString
          | String c r => String c (replace_all f false r)
          end
      end
  end.

Definition starts_with_slash (s : string) : bool :=
  match s with String c _ => Ascii.eqb c "/" | EmptyString => false end.

(** [s.endsWith('/')] *)
Fixpoint ends_with_slash (s : string) : bool :=
  match s with
  | EmptyString => false
  | String c EmptyString => Ascii.eqb c "/"
  | String _ r => ends_with_slash r
  end.

(** The value [$a(route)] assigns to [$loc.hash]. *)
Definition dollar_a (route : string) : string :=
  let r := replace_all (S (String.length route)) true route in
  if starts_with_slash r then r else String "/" r.

End Redirect.

(* ================================================================== *)
(** ** The HTTP helpers [RESTClient] and [RESTAdapter]
    (src/yokto.js, lines 406-530) *)
Module Rest.

(** [baseUrl.replace(/\/+$/, "")]: the leftmost position where a run of
    ['/'] reaches the end. *)
Fixpoint trim_trailing_slashes (s : string) : string :=
  match s with
  | EmptyString => EmptyString
  | String c r =>
      if Redirect.all_slashes s then EmptyString
      else String c (trim_trailing_slashes r)
  end.

(** The URL [call(method, endpoint, options)] of [RESTAdapter] passes:
    [baseUrl.replace(/\/+$/, "") + "/" + endpoint.replace(/^\/+/, "")]. *)
Definition join_url (baseUrl endpoint : string) : string :=
  (trim_trailing_slashes baseUrl ++ "/" ++ Redirect.drop_slashes endpoint)%string.

(** JavaScript values in option objects; objects and arrays by identity. *)
Inductive value :=
| VUndefined | VNull | VBool (b : bool) | VNumber (n : nat) | VString (s : string)
| VFunction (f : nat) | VArray (a : nat) | VObject (o : nat).

(** The own enumerable properties of an object. *)
Definition obj := gmap string value.

(** [obj[k]] *)
Definition prop (o : obj) (k : string) : value :=
  match o !! k with Some v => v | None => VUndefined end.

(** [{ ...a, ...b }] *)
Definition spread (a b : obj) : obj := b ∪ a.

(** [adapter.get(endpoint, params, opts)]: [call("GET", endpoint,
    { ...opts, params })], which passes [{ ...defaultOptions, ...options }]
    to [RESTClient]. *)
Definition get_options (defaultOptions opts : obj) (params : value) : obj :=
  spread defaultOptions (<["params" := params]> opts).

(** [__(obj)]: a non-null object that is not an array. *)
Definition is_dict (v : value) : bool :=
  match v with VObject _ => true | _ => false end.

Definition truthy (v : value) : bool :=
  match v with
  | VUndefined | VNull | VBool false | VNumber 0 => false
  | VString s => negb (String.eqb s EmptyString)
  | _ => true
  end.

Definition contains_qmark (s : string) : bool :=
  existsb (fun c => Ascii.eqb c "?") (list_ascii_of_string s).

(** [fullUrl] of [RESTClient]; [query_string o] is
    [new URLSearchParams(o).toString()]. *)
Definition full_url (query_string : nat -> string) (url : string) (params : value)
    : string :=
  if truthy params && is_dict params then
    match params with
    | VObject o =>
        (url ++ (if contains_qmark url then "&" else "?") ++ query_string o)%string
    | _ => url
    end
  else url.

(** *** The attempt loop of [RESTClient] *)
Section Retry.
Context {V E : Type}.

(** The body of an ok response: [resp.json()] resolves or rejects. *)
Inductive body := BodyOk (v : V) | BodyErr (abort : bool) (e : E).

(** What the call [await fetchWithTimeout(signal)] of one attempt
    yields: it throws before [fetch] is called ([FNotSent]: building the
    request failed, as [JSON.stringify(data)] does on a cyclic [data],
    which throws [new Error("Invalid JSON data")]), or [fetch] is called
    and responds ([resp.ok], [resp.status], its body) or rejects; [abort]
    is [err.name === 'AbortError']. *)
Inductive fetch_outcome :=
| FNotSent (abort : bool) (e : E)
| FResp (ok : bool) (status : nat) (b : body)
| FReject (abort : bool) (e : E).

(** What the call throws: [new Error(`HTTP ...`)], a caught error,
    [new Error('Timeout')], or [null] (the initial [lastErr]). *)
Inductive error := ErrHttp (status : nat) | ErrThrown (e : E) | ErrTimeout | ErrNull.

(** What the call resolves to: the [Response] of an attempt ([raw]) or
    the parsed JSON. *)
Inductive result := RawResponse (attempt : nat) | Json (v : V).

(** [Fetch i]: attempt [i] calls [fetch(fullUrl, fetchOptions)].
    [Wait i]: after attempt [i] failed, the loop runs
    [await new Promise(r => setTimeout(r, wait))] with
    [wait = baseDelay * Math.pow(factor, i - 1)]; the event names the
    attempt whose back-off it is, the delay the timer really takes
    being the platform's reading of that number. *)
Inductive event := Fetch (attempt : nat) | Wait (attempt : nat).

(** [options.retry]: an integral number, an object whose [attempts]
    field is a natural number ([0] when it is absent or falsy; its
    [delay] and [factor] only set the length of the waits), or [null]. *)
Inductive retry_opt :=
| RetryNumber (n : Z)
| RetryObject (attempts : nat)
| RetryNull.

(** [typeof retry === "number" ? retry + 1 : (retry?.attempts || 1)] *)
Definition max_attempts (r : retry_opt) : Z :=
  match r with
  | RetryNumber n => (n + 1)%Z
  | RetryObject a => if Nat.eqb a 0 then 1%Z else Z.of_nat a
  | RetryNull => 1%Z
  end.

(** The [try] block of one attempt: a result, or the caught error with
    whether its name is ['AbortError']. *)
Definition attempt_result (raw : bool) (fetch : nat -> fetch_outcome) (attempt : nat)
    : result + (bool * error) :=
  match fetch attempt with
  | FNotSent abort e => inr (abort, ErrThrown e)
  | FResp ok status b =>
      if negb ok then inr (false, ErrHttp status)
      else if raw then inl (RawResponse attempt)
      else match b with
           | BodyOk v => inl (Json v)
           | BodyErr abort e => inr (abort, ErrThrown e)
           end
  | FReject abort e => inr (abort, ErrThrown e)
  end.

(** The [fetch] call of an attempt, if it gets that far. *)
Definition fetch_events (fetch : nat -> fetch_outcome) (attempt : nat) : list event :=
  match fetch attempt with
  | FNotSent _ _ => []
  | _ => [Fetch attempt]
  end.

(** [for (let attempt = 1; attempt <= maxAttempts; attempt++)]; [left]
    is the number of rounds still allowed, so [attempt < maxAttempts]
    holds when more than one is left.  The answer is what the call
    resolves to or throws, and the [fetch] calls and waits in order.
    The [log] calls return: [options.logger] is left at its default,
    [defaultLogger], which writes to the console. *)
Fixpoint attempts (raw : bool) (fetch : nat -> fetch_outcome)
    (left attempt : nat) (lastErr : error) : (result + error) * list event :=
  match left with
  | 0 => (inr lastErr, [])
  | S left' =>
      let fe := fetch_events fetch attempt in
      match attempt_result raw fetch attempt with
      | inl r => (inl r, fe)
      | inr (true, _) => (inr ErrTimeout, fe)
      | inr (false, err) =>
          let waits := match left' with
                       | 0 => []
                       | S _ => [Wait attempt]
                       end in
          let (res, tr) := attempts raw fetch left' (S attempt) err in
          (res, (fe ++ waits ++ tr)%list)
      end
  end.

(** [RESTClient(method, url, { raw, retry, ... })]. *)
Definition RESTClient (raw : bool) (retry : retry_opt) (fetch : nat -> fetch_outcome)
    : (result + error) * list event :=
  attempts raw fetch (Z.to_nat (max_attempts retry)) 1 ErrNull.

End Retry.
Arguments retry_opt : clear implicits.

End Rest.

(* ================================================================== *)
(** ** [Logger] (src/yokto.js, lines 379-397)

<<
    const { verbose = false, prefix = "yokto", level = "info" } = opts;
    const levels = { error: 0, warn: 1, info: 2, debug: 3 };
    const current = levels[level] ?? 2;
    function log(lvl, ...args) {
        if (levels[lvl] <= current || verbose) { ... }
    }
>> *)
Module Log.

(** What a property read on the object literal [levels] gives: one of
    its numbers, a member inherited from [Object.prototype], or
    [undefined]. *)
Inductive level_value := LNum (n : nat) | LInherited | LUndefined.

Definition object_prototype_members : list string :=
  ["constructor"; "__defineGetter__"; "__defineSetter__"; "hasOwnProperty";
   "__lookupGetter__"; "__lookupSetter__"; "isPrototypeOf";
   "propertyIsEnumerable"; "toString"; "valueOf"; "__proto__"; "toLocaleString"].

(** [levels[k]] *)
Definition levels (k : string) : level_value :=
  if String.eqb k "error" then LNum 0
  else if String.eqb k "warn" then LNum 1
  else if String.eqb k "info" then LNum 2
  else if String.eqb k "debug" then LNum 3
  else if existsb (String.eqb k) object_prototype_members then LInherited
  else LUndefined.

(** [levels[level] ?? 2] *)
Definition current (level : string) : level_value :=
  match levels level with LUndefined => LNum 2 | v => v end.

(** [a <= b]: an inherited member (a function or [Object.prototype])
    converts to [NaN], and every comparison with [NaN] is false. *)
Definition le (a b : level_value) : bool :=
  match a, b with LNum x, LNum y => Nat.leb x y | _, _ => false end.

Inductive method := MError | MWarn | MInfo | MDebug.

Definition method_name (m : method) : string :=
  match m with
  | MError => "error" | MWarn => "warn" | MInfo => "info" | MDebug => "debug"
  end.

(** Whether [Logger({ verbose, level })[m](...)] writes to the console;
    [level = None] is the default ["info"]. *)
Definition emits (verbose : bool) (level : option string) (m : method) : bool :=
  let lv := match level with Some l => l | None => "info" end in
  le (levels (method_name m)) (current lv) || verbose.

(** [defaultLogger = Logger({ verbose: false, prefix: "yokto" })] *)
Definition defaultLogger_emits (m : method) : bool := emits false None m.

End Log.

(* ================================================================== *)
(** * Properties *)

Open Scope list_scope.

(** ** Map and LRU facts *)
Section MapFacts.
Context {V : Type}.
Implicit Types (m : JsMap.t V) (c : LRU.LRUCache V).

Lemma has_false_not_in m k : JsMap.has m k = false -> ~ In k (JsMap.keys m).
Proof.
  induction m as [|[k' v'] m IH]; simpl; [tauto|].
  intros H [E|Hin].
  - subst. rewrite String.eqb_refl in H. discriminate.
  - apply orb_false_iff in H as [_ H]. exact (IH H Hin).
Qed.

Lemma not_in_has_false m k : ~ In k (JsMap.keys m) -> JsMap.has m k = false.
Proof.
  induction m as [|[k' v'] m IH]; simpl; [reflexivity|].
  intros H. apply orb_false_iff. split.
  - apply String.eqb_neq. intros ->. apply H. left; reflexivity.
  - apply IH. intros Hin. apply H. right; exact Hin.
Qed.

Lemma get_has m k v : JsMap.get m k = Some v -> JsMap.has m k = true.
Proof.
  induction m as [|[k' v'] m IH]; simpl; [discriminate|].
  destruct (String.eqb k' k); simpl; auto.
Qed.

Lemma set_absent m k v :
  JsMap.has m k = false -> JsMap.set m k v = m ++ [(k, v)].
Proof.
  induction m as [|[k' v'] m IH]; simpl; [reflexivity|].
  intros H. apply orb_false_iff in H as [H1 H2]. rewrite H1, IH; auto.
Qed.

Lemma has_delete m k : JsMap.has (JsMap.delete m k) k = false.
Proof.
  unfold JsMap.delete.
  induction m as [|[k' v'] m IH]; simpl; [reflexivity|].
  destruct (String.eqb k' k) eqn:E; simpl; [exact IH|].
  rewrite E. exact IH.
Qed.

Lemma keys_delete_incl m k x :
  In x (JsMap.keys (JsMap.delete m k)) -> In x (JsMap.keys m).
Proof.
  unfold JsMap.delete.
  induction m as [|[k' v'] m IH]; simpl; [tauto|].
  destruct (String.eqb k' k); simpl; intuition.
Qed.

Lemma NoDup_delete m k :
  List.NoDup (JsMap.keys m) -> List.NoDup (JsMap.keys (JsMap.delete m k)).
Proof.
  unfold JsMap.delete.
  induction m as [|[k' v'] m IH]; simpl; [auto|].
  intros H. inversion H as [|? ? Hni Hnd]; subst.
  destruct (String.eqb k' k); simpl; [auto|].
  constructor; [|auto]. intros Hin. apply Hni. eapply keys_delete_incl; eauto.
Qed.

Lemma delete_not_in m k : ~ In k (JsMap.keys m) -> JsMap.delete m k = m.
Proof.
  unfold JsMap.delete.
  induction m as [|[k' v'] m IH]; simpl; [reflexivity|].
  intros H. destruct (String.eqb k' k) eqn:E.
  - apply String.eqb_eq in E. subst. exfalso. apply H. left; reflexivity.
  - simpl. f_equal. apply IH. intros Hin. apply H. right; exact Hin.
Qed.

Lemma length_delete_le m k : length (JsMap.delete m k) <= length m.
Proof. unfold JsMap.delete. apply List.filter_length_le. Qed.

Lemma keys_app m m' : JsMap.keys (m ++ m') = JsMap.keys m ++ JsMap.keys m'.
Proof. unfold JsMap.keys. apply map_app. Qed.

Lemma NoDup_snoc m k v :
  List.NoDup (JsMap.keys m) -> ~ In k (JsMap.keys m) ->
  List.NoDup (JsMap.keys (m ++ [(k, v)])).
Proof.
  intros Hnd Hni. rewrite keys_app. simpl.
  apply List.NoDup_app; [exact Hnd | constructor; [simpl; tauto | constructor] |].
  intros x Hx [E|[]]. subst. exact (Hni Hx).
Qed.

(** The first step of [LRU.set]: the key is absent afterwards. *)
Lemma set_prefix_facts m k :
  List.NoDup (JsMap.keys m) ->
  let m1 := if JsMap.has m k then JsMap.delete m k else m in
  List.NoDup (JsMap.keys m1) /\ JsMap.has m1 k = false /\ length m1 <= length m.
Proof.
  intros Hnd. destruct (JsMap.has m k) eqn:E; cbn zeta.
  - split; [apply NoDup_delete; exact Hnd|].
    split; [apply has_delete | apply length_delete_le].
  - auto.
Qed.

(** Evicting the first entry of a map with distinct keys drops exactly
    that entry. *)
Lemma evict_first_tl m :
  List.NoDup (JsMap.keys m) -> LRU.evict_first m = tl m.
Proof.
  destruct m as [|[k0 v0] m]; simpl; [reflexivity|].
  intros H. inversion H as [|? ? Hni _]; subst.
  rewrite String.eqb_refl. simpl. apply delete_not_in. exact Hni.
Qed.

Definition lru_inv c : Prop :=
  List.NoDup (JsMap.keys (LRU.cache c)) /\ length (LRU.cache c) <= LRU.max c.

Lemma lru_set_inv c k v : lru_inv c -> lru_inv (LRU.set k v c).
Proof.
  intros [Hnd Hle]. unfold LRU.set.
  destruct (set_prefix_facts (LRU.cache c) k Hnd) as (Hnd1 & Hhas1 & Hlen1).
  set (m1 := if JsMap.has (LRU.cache c) k then _ else _) in *.
  rewrite (set_absent m1 k v Hhas1).
  pose proof (NoDup_snoc m1 k v Hnd1 (has_false_not_in m1 k Hhas1)) as Hnd2.
  unfold JsMap.size. rewrite length_app. simpl.
  destruct (Nat.ltb (LRU.max c) (length m1 + 1)) eqn:Elt; split; simpl.
  - rewrite evict_first_tl by exact Hnd2.
    destruct m1 as [|e m1']; simpl; [constructor|].
    simpl in Hnd2. inversion Hnd2; assumption.
  - rewrite evict_first_tl by exact Hnd2.
    destruct m1 as [|e m1']; simpl in *; [lia|].
    rewrite length_app. simpl. lia.
  - exact Hnd2.
  - apply Nat.ltb_ge in Elt. rewrite length_app. simpl. lia.
Qed.

Lemma lru_step_inv c o : lru_inv c -> lru_inv (LRU.step o c).
Proof.
  intros Hi. destruct o as [k|k v|k|]; simpl.
  - unfold LRU.get. destruct (JsMap.has (LRU.cache c) k) eqn:Eh; simpl; [|exact Hi].
    destruct (JsMap.get (LRU.cache c) k) as [v|] eqn:Eg; simpl; [|exact Hi].
    destruct Hi as [Hnd Hle].
    pose proof (NoDup_delete _ k Hnd) as Hnd1.
    rewrite (set_absent _ k v (has_delete _ k)). split; simpl.
    + apply NoDup_snoc; [exact Hnd1|]. apply has_false_not_in, has_delete.
    + rewrite length_app. simpl.
      assert (length (JsMap.delete (LRU.cache c) k) < length (LRU.cache c)).
      { clear -Eg. unfold JsMap.delete. induction (LRU.cache c) as [|[k' v'] m IH]; simpl in *;
          [discriminate|].
        destruct (String.eqb k' k); simpl.
        - pose proof (length_delete_le m k) as Hl. unfold JsMap.delete in Hl. lia.
        - specialize (IH Eg). lia. }
      lia.
  - apply lru_set_inv. exact Hi.
  - destruct Hi as [Hnd Hle]. split; simpl.
    + apply NoDup_delete. exact Hnd.
    + pose proof (length_delete_le (LRU.cache c) k). lia.
  - split; simpl; [constructor | lia].
Qed.

Lemma lru_run_inv ops c : lru_inv c -> lru_inv (LRU.run ops c).
Proof.
  unfold LRU.run. revert c.
  induction ops as [|o ops IH]; simpl; intros c Hi; [exact Hi|].
  apply IH. apply lru_step_inv. exact Hi.
Qed.

Lemma lru_step_max c o : LRU.max (LRU.step o c) = LRU.max c.
Proof.
  destruct o as [k|k v|k|]; simpl; try reflexivity.
  - unfold LRU.get. destruct (JsMap.has (LRU.cache c) k); simpl; [|reflexivity].
    destruct (JsMap.get (LRU.cache c) k); reflexivity.
  - unfold LRU.set. destruct (Nat.ltb _ _); reflexivity.
Qed.

Lemma lru_run_max ops c : LRU.max (LRU.run ops c) = LRU.max c.
Proof.
  unfold LRU.run. revert c.
  induction ops as [|o ops IH]; intros c; simpl; [reflexivity|].
  rewrite IH. apply lru_step_max.
Qed.

Lemma lru_get_hit c k v :
  JsMap.get (LRU.cache c) k = Some v ->
  LRU.get k c =
    (Some v, LRU.mkLRU (LRU.max c) (JsMap.delete (LRU.cache c) k ++ [(k, v)])).
Proof.
  intros Eg. unfold LRU.get. rewrite (get_has _ _ _ Eg), Eg. simpl.
  rewrite set_absent by apply has_delete. reflexivity.
Qed.

Lemma lru_clear_miss c k : fst (LRU.get k (LRU.clear c)) = None.
Proof. reflexivity. Qed.

End MapFacts.

(** ** The selector cache *)

(** C3: the selector cache is a bounded LRU cache.  Whatever sequence of
    [get], [set], [delete] and [clear] calls runs on a cache created with
    capacity [mx], it never holds more than [mx] entries; the global cache
    has capacity 100; an insertion of a new key into a full cache drops
    the first entry in recency order; a [get] hit moves the entry to the
    most-recently-used end; with capacity 2, after setting [a], [b], [c],
    [get("a")] misses. *)
Theorem lru_cache_policy :
  (forall (V : Type) (mx : nat) (ops : list (LRU.op V)),
     JsMap.size (LRU.cache (LRU.run ops (LRU.create mx))) <= mx) /\
  LRU.max Observe.initial_cache = 100 /\
  (forall (V : Type) (c : LRU.LRUCache V) (k : string) (v : V),
     List.NoDup (JsMap.keys (LRU.cache c)) ->
     JsMap.has (LRU.cache c) k = false ->
     LRU.max c < S (JsMap.size (LRU.cache c)) ->
     LRU.cache (LRU.set k v c) = tl (LRU.cache c ++ [(k, v)])) /\
  (forall (V : Type) (c : LRU.LRUCache V) (k : string) (v : V),
     JsMap.get (LRU.cache c) k = Some v ->
     LRU.get k c =
       (Some v, LRU.mkLRU (LRU.max c) (JsMap.delete (LRU.cache c) k ++ [(k, v)]))) /\
  (let c := LRU.run [LRU.OSet "a" 1; LRU.OSet "b" 2; LRU.OSet "c" 3]
              (LRU.create 2) in
   LRU.cache c = [("b", 2); ("c", 3)] /\ fst (LRU.get "a" c) = None).
Proof.
  split; [|split; [reflexivity|split; [|split]]].
  - intros V mx ops.
    assert (Hi : lru_inv (LRU.run ops (LRU.create mx))).
    { apply lru_run_inv. split; simpl; [constructor | lia]. }
    destruct Hi as [_ Hle]. unfold JsMap.size.
    rewrite lru_run_max in Hle. exact Hle.
  - intros V c k v Hnd Hhas Hlt. unfold LRU.set. rewrite Hhas.
    rewrite (set_absent _ k v Hhas). unfold JsMap.size in *.
    rewrite length_app. simpl.
    replace (Nat.ltb (LRU.max c) (length (LRU.cache c) + 1)) with true
      by (symmetry; apply Nat.ltb_lt; lia).
    simpl. apply evict_first_tl.
    apply NoDup_snoc; [exact Hnd | apply has_false_not_in; exact Hhas].
  - intros V c k v Eg. apply lru_get_hit. exact Eg.
  - split; reflexivity.
Qed.

(** Instance of the second part of [lru_cache_policy]. *)
Lemma lru_cache_policy_witness :
  List.NoDup (JsMap.keys [("a", 1); ("b", 2)]) /\
  JsMap.has [("a", 1); ("b", 2)] "c" = false /\
  LRU.max (LRU.mkLRU 2 [("a", 1); ("b", 2)]) <
    S (JsMap.size [("a", 1); ("b", 2)]) /\
  LRU.cache (LRU.set "c" 3 (LRU.mkLRU 2 [("a", 1); ("b", 2)])) = [("b", 2); ("c", 3)].
Proof.
  assert (Hnd : List.NoDup (JsMap.keys [("a", 1); ("b", 2)])).
  { simpl. constructor; [simpl; intros [H|[]]; discriminate|].
    constructor; [simpl; tauto | constructor]. }
  split; [exact Hnd|]. split; [reflexivity|]. split; [simpl; lia|].
  apply (proj1 (proj2 (proj2 lru_cache_policy)) nat
           (LRU.mkLRU 2 [("a", 1); ("b", 2)]) "c" 3);
    [exact Hnd | reflexivity | simpl; lia].
Defined.

(** ** The cache-invalidating observer *)

(** C4 (as the code has it): the observer is attached to [document.body]
    as it is when the library loads.  If that body exists, delivering a
    batch with a [childList] mutation whose target is the body or one of
    its descendants empties the cache, so every selector misses.  A batch
    with no such record leaves the cache unchanged, and if there was no
    body at load time no delivery changes the cache. *)
Theorem observer_clears_cache_on_body_mutation :
  forall (V : Type) (d0 : Observe.Doc) (batch : list (Observe.Doc * Observe.MutationRecord))
         (c : LRU.LRUCache V),
  (forall b, Observe.body d0 = Some b ->
     (exists d r, In (d, r) batch /\ Observe.mtype r = Observe.ChildList /\
        Observe.inclusive_ancestor (length (Observe.parent_of d)) d b (Observe.mtarget r) = true) ->
     LRU.cache (Observe.deliver (Observe.observed_root Observe.yokto_config d0) batch c) = [] /\
     forall k, fst (LRU.get k (Observe.deliver (Observe.observed_root Observe.yokto_config d0) batch c)) = None) /\
  (forall b, Observe.body d0 = Some b ->
     (forall d r, In (d, r) batch ->
        Observe.mtype r <> Observe.ChildList \/
        Observe.inclusive_ancestor (length (Observe.parent_of d)) d b (Observe.mtarget r) = false) ->
     Observe.deliver (Observe.observed_root Observe.yokto_config d0) batch c = c) /\
  (Observe.body d0 = None ->
     Observe.deliver (Observe.observed_root Observe.yokto_config d0) batch c = c).
Proof.
  intros V d0 batch c. unfold Observe.observed_root. simpl.
  split; [|split].
  - intros b Hb (d & r & Hin & Ht & Ha). rewrite Hb. simpl.
    replace (existsb _ batch) with true; [split; reflexivity|].
    symmetry. apply existsb_exists. exists (d, r). split; [exact Hin|].
    unfold Observe.interested. rewrite Ha, Ht. reflexivity.
  - intros b Hb Hno. rewrite Hb. simpl.
    replace (existsb _ batch) with false; [reflexivity|].
    symmetry. apply not_true_iff_false. intros Hex.
    apply existsb_exists in Hex as [[d r] [Hin Hi]].
    unfold Observe.interested in Hi. apply andb_true_iff in Hi as [Ha Ht].
    destruct (Hno d r Hin) as [Hn|Hn].
    + destruct (Observe.mtype r); [exact (Hn eq_refl) | discriminate | discriminate].
    + rewrite Hn in Ha. discriminate.
  - intros Hb. rewrite Hb. reflexivity.
Qed.

(** Instance of [observer_clears_cache_on_body_mutation]: nodes 0
    ([<html>]), 1 ([<head>]), 2 ([<body>]) and 3 (a child of the body);
    a child-list change on node 3 empties the cache. *)
Lemma observer_clears_cache_on_body_mutation_witness :
  LRU.cache
    (Observe.deliver
       (Observe.observed_root Observe.yokto_config
          (Observe.mkDoc [(1, 0); (2, 0); (3, 2)] (Some 2)))
       [(Observe.mkDoc [(1, 0); (2, 0); (3, 2)] (Some 2),
         Observe.mkRecord Observe.ChildList 3)]
       (LRU.mkLRU 100 [("p", 0)])) = [].
Proof.
  refine (proj1 (proj1 (observer_clears_cache_on_body_mutation nat
             (Observe.mkDoc [(1, 0); (2, 0); (3, 2)] (Some 2))
             [(Observe.mkDoc [(1, 0); (2, 0); (3, 2)] (Some 2),
               Observe.mkRecord Observe.ChildList 3)]
             (LRU.mkLRU 100 [("p", 0)])) 2 eq_refl _)).
  exists (Observe.mkDoc [(1, 0); (2, 0); (3, 2)] (Some 2)),
         (Observe.mkRecord Observe.ChildList 3).
  split; [left; reflexivity | split; reflexivity].
Defined.

(** C4 fails as stated: a child-list change in [<head>] (node 1, outside
    the observed body) leaves a cached selector in place, and so does a
    change in the body when the library was loaded before [<body>]
    existed. *)
Lemma observer_misses_mutations_outside_body :
  fst (LRU.get "style"
         (Observe.deliver
            (Observe.observed_root Observe.yokto_config
               (Observe.mkDoc [(1, 0); (2, 0)] (Some 2)))
            [(Observe.mkDoc [(1, 0); (2, 0)] (Some 2),
              Observe.mkRecord Observe.ChildList 1)]
            (LRU.mkLRU 100 [("style", 0)]))) = Some 0 /\
  fst (LRU.get "div"
         (Observe.deliver
            (Observe.observed_root Observe.yokto_config
               (Observe.mkDoc [(1, 0)] None))
            [(Observe.mkDoc [(1, 0); (2, 0)] (Some 2),
              Observe.mkRecord Observe.ChildList 2)]
            (LRU.mkLRU 100 [("div", 0)]))) = Some 0.
Proof. split; reflexivity. Qed.

(** ** The selection entry point *)
Section MapGet.
Context {V : Type}.
Implicit Types (m : JsMap.t V) (c : LRU.LRUCache V).

Lemma has_false_get m k : JsMap.has m k = false -> JsMap.get m k = None.
Proof.
  induction m as [|[k' v'] m IH]; simpl; [reflexivity|].
  intros H. apply orb_false_iff in H as [H1 H2]. rewrite H1. auto.
Qed.

Lemma get_none_has m k : JsMap.get m k = None -> JsMap.has m k = false.
Proof.
  intros H. destruct (JsMap.has m k) eqn:E; [|reflexivity].
  exfalso. induction m as [|[k' v'] m IH]; simpl in *; [discriminate|].
  destruct (String.eqb k' k); [discriminate|]. auto.
Qed.

Lemma get_delete m k0 k :
  JsMap.get (JsMap.delete m k0) k = if String.eqb k0 k then None else JsMap.get m k.
Proof.
  unfold JsMap.delete.
  induction m as [|[k' v'] m IH]; simpl.
  - destruct (String.eqb k0 k); reflexivity.
  - destruct (String.eqb k' k0) eqn:E1; simpl.
    + apply String.eqb_eq in E1. subst k'. rewrite IH.
      destruct (String.eqb k0 k); reflexivity.
    + destruct (String.eqb k' k) eqn:E2.
      * apply String.eqb_eq in E2. subst k'.
        rewrite String.eqb_sym, E1. reflexivity.
      * exact IH.
Qed.

Lemma get_snoc_new m k v :
  JsMap.get m k = None -> JsMap.get (m ++ [(k, v)]) k = Some v.
Proof.
  induction m as [|[k' v'] m IH]; simpl; intros H.
  - rewrite String.eqb_refl. reflexivity.
  - destruct (String.eqb k' k); [discriminate|]. auto.
Qed.

(** After [LRU.set k v], [k] maps to [v] or (capacity 0) is gone. *)
Lemma lru_set_get_self c k v :
  JsMap.get (LRU.cache (LRU.set k v c)) k = Some v \/
  JsMap.get (LRU.cache (LRU.set k v c)) k = None.
Proof.
  unfold LRU.set.
  set (m1 := if JsMap.has (LRU.cache c) k then _ else _).
  assert (Hh : JsMap.has m1 k = false).
  { unfold m1. destruct (JsMap.has (LRU.cache c) k) eqn:E; [apply has_delete | exact E]. }
  rewrite (set_absent m1 k v Hh).
  assert (Hg : JsMap.get (m1 ++ [(k, v)]) k = Some v)
    by (apply get_snoc_new, has_false_get, Hh).
  destruct (Nat.ltb _ _); cbn [LRU.cache]; [|left; exact Hg].
  unfold LRU.evict_first.
  destruct (m1 ++ [(k, v)]) as [|[k0 v0] m2] eqn:Em; [left; exact Hg|].
  rewrite get_delete. destruct (String.eqb k0 k); [right | left]; auto.
Qed.

(** A new key survives its own insertion when the capacity is at least 1. *)
Lemma lru_set_get_new c k v :
  JsMap.get (LRU.cache c) k = None -> 1 <= LRU.max c ->
  JsMap.get (LRU.cache (LRU.set k v c)) k = Some v.
Proof.
  intros Hg Hmax. unfold LRU.set. rewrite (get_none_has _ _ Hg).
  rewrite (set_absent _ k v (get_none_has _ _ Hg)).
  destruct (Nat.ltb _ _) eqn:Elt; simpl; [|apply get_snoc_new; exact Hg].
  apply Nat.ltb_lt in Elt. unfold JsMap.size in Elt. rewrite length_app in Elt.
  destruct (LRU.cache c) as [|[k0 v0] m] eqn:Ec; simpl in *; [lia|].
  destruct (String.eqb k0 k) eqn:E0; [discriminate|].
  rewrite String.eqb_refl. simpl.
  replace (List.filter _ (m ++ [(k, v)])) with (JsMap.delete (m ++ [(k, v)]) k0)
    by reflexivity.
  rewrite get_delete, E0. apply get_snoc_new. exact Hg.
Qed.

End MapGet.

(** C8: a cached entry whose array has been reclaimed is a miss.  The
    call [$(q, rl, true, scope)] then runs exactly the uncached query
    path on the cache with the entry deleted; it throws only when
    [querySelectorAll] throws; and afterwards [q] is either absent from
    the cache or maps to a live array. *)
Theorem dollar_stale_entry_is_miss :
  forall (Scope Elem : Type) (qsa : Scope -> string -> option (list Elem))
         (is_el : Elem -> bool) (q : string) (rl : bool) (sc : Scope)
         (w : Select.World Elem) (ref : nat),
  JsMap.get (LRU.cache (Select.wcache w)) q = Some ref ->
  Select.heap w !! ref = None ->
  let res := Select.dollar qsa is_el q rl true sc w in
  res = Select.dollar_query qsa is_el q rl true sc
          (Select.set_cache w (LRU.delete q (snd (LRU.get q (Select.wcache w))))) /\
  (fst res = Select.Throw <-> qsa sc q = None) /\
  (JsMap.get (LRU.cache (Select.wcache (snd res))) q = None \/
   exists a, JsMap.get (LRU.cache (Select.wcache (snd res))) q = Some a /\
             Select.heap (snd res) !! a <> None).
Proof.
  intros Scope Elem qsa is_el q rl sc w ref Hg Hh res.
  assert (Hres : res = Select.dollar_query qsa is_el q rl true sc
          (Select.set_cache w (LRU.delete q (snd (LRU.get q (Select.wcache w)))))).
  { unfold res, Select.dollar. rewrite (lru_get_hit _ _ _ Hg). simpl.
    rewrite Hh. reflexivity. }
  split; [exact Hres|]. rewrite Hres. clear res Hres.
  set (w1 := Select.set_cache w _).
  assert (Hmiss : JsMap.get (LRU.cache (Select.wcache w1)) q = None).
  { simpl. rewrite get_delete, String.eqb_refl. reflexivity. }
  unfold Select.dollar_query.
  destruct (qsa sc q) as [elems|] eqn:Eq; simpl.
  - destruct (Nat.eqb (length elems) 0 && negb rl); simpl.
    + split; [split; discriminate|]. left; exact Hmiss.
    + destruct (Nat.eqb (length elems) 1 && negb rl); simpl;
      split; try (split; discriminate);
      (destruct (lru_set_get_self (Select.wcache w1) q (Select.next_obj w1)) as [E|E];
       [right; exists (Select.next_obj w1); split; [exact E|];
        rewrite lookup_insert_eq; discriminate
       | left; exact E]).
  - split; [split; reflexivity|]. left. exact Hmiss.
Qed.

(** C10: for a selector that matches nothing, the uncached
    single-element call returns [null]; a cached list call stores and
    returns a fresh empty array, and the next cached single-element call
    returns that same array; in general a live cached array whose length
    is not 1 is returned as it is, whatever [return_list] says. *)
Theorem dollar_cached_empty_array_not_null :
  forall (Scope Elem : Type) (qsa : Scope -> string -> option (list Elem))
         (is_el : Elem -> bool) (s : string) (sc : Scope) (w : Select.World Elem),
  (qsa sc s = Some [] ->
     fst (Select.dollar qsa is_el s false false sc w) = Select.Ret Select.RNull) /\
  (qsa sc s = Some [] ->
     JsMap.get (LRU.cache (Select.wcache w)) s = None ->
     1 <= LRU.max (Select.wcache w) ->
     exists a,
       fst (Select.dollar qsa is_el s true true sc w) = Select.Ret (Select.RArr a) /\
       Select.heap (snd (Select.dollar qsa is_el s true true sc w)) !! a = Some [] /\
       fst (Select.dollar qsa is_el s false true sc
              (snd (Select.dollar qsa is_el s true true sc w)))
         = Select.Ret (Select.RArr a)) /\
  (forall (a : nat) (arr : list Elem) (rl : bool),
     JsMap.get (LRU.cache (Select.wcache w)) s = Some a ->
     Select.heap w !! a = Some arr -> length arr <> 1 ->
     fst (Select.dollar qsa is_el s rl true sc w) = Select.Ret (Select.RArr a)).
Proof.
  intros Scope Elem qsa is_el s sc w. split; [|split].
  - intros Hq. unfold Select.dollar, Select.dollar_query. rewrite Hq. reflexivity.
  - intros Hq Hg Hmax. exists (Select.next_obj w).
    assert (Hfirst : Select.dollar qsa is_el s true true sc w =
      (Select.Ret (Select.RArr (Select.next_obj w)),
       Select.mkWorld (LRU.set s (Select.next_obj w) (Select.wcache w))
         (<[Select.next_obj w := []]> (Select.heap w)) (S (Select.next_obj w)))).
    { unfold Select.dollar, LRU.get. rewrite (get_none_has _ _ Hg). simpl.
      unfold Select.dollar_query. rewrite Hq. reflexivity. }
    rewrite Hfirst. simpl. split; [reflexivity|].
    split; [apply lookup_insert_eq|].
    unfold Select.dollar. simpl.
    rewrite (lru_get_hit _ _ _ (lru_set_get_new _ _ _ Hg Hmax)). simpl.
    rewrite lookup_insert_eq. reflexivity.
  - intros a arr rl Hg Hh Hl. unfold Select.dollar.
    rewrite (lru_get_hit _ _ _ Hg). simpl. rewrite Hh.
    destruct (Nat.eqb (length arr) 1) eqn:E; [apply Nat.eqb_eq in E; lia|].
    reflexivity.
Qed.

(** Instance of [dollar_stale_entry_is_miss]: ["div"] is cached at
    address 0, which has been reclaimed; the call re-queries and returns
    the element. *)
Lemma dollar_stale_entry_is_miss_witness :
  let qsa := fun (_ : unit) (q : string) =>
               if String.eqb q "div" then Some [7] else Some [] in
  let w := Select.mkWorld (LRU.mkLRU 100 [("div", 0)]) (∅ : gmap nat (list nat)) 1 in
  JsMap.get (LRU.cache (Select.wcache w)) "div" = Some 0 /\
  Select.heap w !! 0 = None /\
  fst (Select.dollar qsa (fun _ => true) "div" false true tt w) = Select.Ret (Select.RElem 7).
Proof.
  intros qsa w. split; [reflexivity|]. split; [reflexivity|].
  destruct (dollar_stale_entry_is_miss unit nat qsa (fun _ => true) "div" false tt w 0
              eq_refl eq_refl) as [H _].
  rewrite H. reflexivity.
Defined.

(** Instance of [dollar_cached_empty_array_not_null] on an empty cache
    of capacity 100 and a selector ["p"] that matches nothing. *)
Lemma dollar_cached_empty_array_not_null_witness :
  let qsa := fun (_ : unit) (_ : string) => Some (@nil nat) in
  let w := Select.mkWorld (LRU.mkLRU 100 []) (∅ : gmap nat (list nat)) 0 in
  qsa tt "p" = Some [] /\
  exists a,
    fst (Select.dollar qsa (fun _ => true) "p" true true tt w) = Select.Ret (Select.RArr a) /\
    Select.heap (snd (Select.dollar qsa (fun _ => true) "p" true true tt w)) !! a = Some [] /\
    fst (Select.dollar qsa (fun _ => true) "p" false true tt
           (snd (Select.dollar qsa (fun _ => true) "p" true true tt w)))
      = Select.Ret (Select.RArr a).
Proof.
  intros qsa w. split; [reflexivity|].
  apply (proj1 (proj2 (dollar_cached_empty_array_not_null unit nat qsa (fun _ => true)
                          "p" tt w))); [reflexivity | reflexivity | simpl; lia].
Defined.

(** ** The hash router *)
Section RouterFacts.
Import Router.

Lemma split_on_no_sep (sep : ascii) (p : string) :
  ~ In sep (list_ascii_of_string p) -> split_on sep p = [p].
Proof.
  induction p as [|c p IH]; simpl; [reflexivity|].
  intros H. destruct (Ascii.eqb c sep) eqn:E.
  - apply Ascii.eqb_eq in E. subst. exfalso. apply H. left; reflexivity.
  - rewrite IH; [reflexivity|]. intros Hin. apply H. right; exact Hin.
Qed.

(** The fragment [#p], for a non-empty [p] without ['?'], is the path
    [p] with an empty query. *)
Lemma parse_hash_plain (pd : string -> string) (p : string) :
  ~ In "?"%char (list_ascii_of_string p) -> p <> EmptyString ->
  parse_hash pd (String "#" p) = (p, ∅).
Proof.
  intros Hp Hne. unfold parse_hash. cbn [strip_hash].
  rewrite Ascii.eqb_refl.
  replace (String.eqb p EmptyString) with false
    by (symmetry; apply String.eqb_neq; exact Hne).
  rewrite split_on_no_sep by exact Hp. reflexivity.
Qed.

Lemma handleHash_plain (pd : string -> string)
    (re : string -> string -> option JsRegExp.caps) (rmap : JsMap.t RouteDef)
    (dflt : option nat) (p : string) :
  ~ In "?"%char (list_ascii_of_string p) -> p <> EmptyString ->
  handleHash pd re rmap dflt (String "#" p) =
  match find_route re rmap p with
  | Some (d, mt) =>
      [TInvoke (callback d) (mkArg p (build_params (paramNames d) mt) ∅)]
  | None =>
      match dflt with
      | Some _ => [TInvokeDefault (mkArg p ∅ ∅)]
      | None => []
      end
  end.
Proof.
  intros Hp Hne. unfold handleHash. rewrite (parse_hash_plain pd p Hp Hne). reflexivity.
Qed.

(** One frame callback, run at any router state, appends at most one
    invocation and leaves the cache empty. *)
Lemma run_task_invoked (st : State) (t : Task) (w : World) :
  invoked (run_task st t w) =
    invoked w ++
    match t with
    | TInvoke cb a => [(cb, a, [])]
    | TInvokeDefault a =>
        match defaultRoute st with Some f => [(f, a, [])] | None => [] end
    end.
Proof.
  destruct t as [cb a|a]; simpl; [reflexivity|].
  destruct (defaultRoute st); simpl; [reflexivity | symmetry; apply app_nil_r].
Qed.

(** Once installed, a default callback stays installed: no call of [$h]
    unsets [$h.defaultRoute]. *)
Lemma register_keeps_default (re_valid : string -> bool) (r cb : jsval) (st : State) f :
  defaultRoute st = Some f ->
  exists g, defaultRoute (match register re_valid r cb st with
                          | Registered st' _ => st'
                          | RegThrew st' _ => st'
                          end) = Some g.
Proof.
  intros Hf. unfold register.
  destruct r as [| |b|n|s|f'|o]; simpl; try (exists f; exact Hf); [|exists f'; reflexivity].
  destruct cb; simpl; try (exists f; exact Hf).
  destruct (compile s) as [src pn]. destruct (re_valid src); simpl;
    [destruct (initialized st)|]; exists f; exact Hf.
Qed.

Lemma register_all_keeps_default (re_valid : string -> bool) calls (st : State) f :
  defaultRoute st = Some f ->
  exists g, defaultRoute (register_all re_valid calls st) = Some g.
Proof.
  revert st f. induction calls as [|[r cb] calls IH]; intros st f Hf; simpl.
  - exists f; exact Hf.
  - destruct (register_keeps_default re_valid r cb st f Hf) as [g Hg].
    destruct (register re_valid r cb st) as [st' e|st' m]; exact (IH st' g Hg).
Qed.

End RouterFacts.

(** C5 fails as the code has it: the default ["/"] applies to the
    whole fragment before it is split at ['?'], not to the path.  For
    [#?a=1] the path is empty, so a route ["/"] does not fire (while it
    does for [#/?a=1]) and a default callback would receive
    [path = ""]. *)
Lemma handleHash_empty_path_not_defaulted :
  Router.parse_hash (fun s => s) "#?a=1" = (EmptyString, {[ "a" := "1" ]}) /\
  Router.dispatch (fun s => s) JsRegExp.exec
    (Router.register_all JsRegExp.valid
       [(Router.JString "/", Router.JFunction 1)] Router.init_state) "#?a=1" = [] /\
  Router.dispatch (fun s => s) JsRegExp.exec
    (Router.register_all JsRegExp.valid
       [(Router.JString "/", Router.JFunction 1)] Router.init_state) "#/?a=1" =
    [Router.TInvoke 1 (Router.mkArg "/" ∅ {[ "a" := "1" ]})] /\
  Router.handleHash (fun s => s) JsRegExp.exec [] (Some 7) "#?a=1" =
    [Router.TInvokeDefault (Router.mkArg EmptyString ∅ {[ "a" := "1" ]})].
Proof. split; [reflexivity|]. split; [reflexivity|]. split; reflexivity. Qed.

(** C7: when no registered route matches the path read from the
    fragment and a default callback is registered, the dispatch
    schedules exactly one frame callback, for the default route, with
    that path, empty [params] and the query.  When the frame runs it
    calls [$h.defaultRoute] as it is then (a default, once registered,
    stays registered), with that argument and nothing else. *)
Theorem default_route_on_no_match :
  forall (pd : string -> string) (re : string -> string -> option JsRegExp.caps)
         (st : Router.State) (f : nat) (lh : string),
  Router.defaultRoute st = Some f ->
  Router.find_route re (match Router.routes st with Some m => m | None => [] end)
    (fst (Router.parse_hash pd lh)) = None ->
  Router.dispatch pd re st lh =
    [Router.TInvokeDefault
       (Router.mkArg (fst (Router.parse_hash pd lh)) ∅ (snd (Router.parse_hash pd lh)))] /\
  (forall (re_valid : string -> bool) (calls : list (Router.jsval * Router.jsval)),
     exists g, Router.defaultRoute (Router.register_all re_valid calls st) = Some g) /\
  (forall (st' : Router.State) (g : nat) (w : Router.World),
     Router.defaultRoute st' = Some g ->
     Router.invoked (Router.run_tasks (map (pair st') (Router.dispatch pd re st lh)) w) =
       Router.invoked w ++
       [(g, Router.mkArg (fst (Router.parse_hash pd lh)) ∅ (snd (Router.parse_hash pd lh)), [])]).
Proof.
  intros pd re st f lh Hf Hno.
  assert (Hd : Router.dispatch pd re st lh =
    [Router.TInvokeDefault
       (Router.mkArg (fst (Router.parse_hash pd lh)) ∅ (snd (Router.parse_hash pd lh)))]).
  { unfold Router.dispatch, Router.handleHash. rewrite Hno, Hf. reflexivity. }
  split; [exact Hd|]. split.
  - intros re_valid calls. exact (register_all_keeps_default re_valid calls st f Hf).
  - intros st' g w Hg. rewrite Hd. unfold Router.run_tasks. cbn [map fold_left].
    rewrite run_task_invoked, Hg. reflexivity.
Qed.

(** Instance of [default_route_on_no_match]: with ["/user/:id"] and a
    default callback registered, [#/about?x=1] goes to the default
    callback. *)
Lemma default_route_on_no_match_witness :
  let st := Router.register_all JsRegExp.valid
              [(Router.JString "/user/:id", Router.JFunction 1);
               (Router.JFunction 9, Router.JUndefined)] Router.init_state in
  Router.dispatch (fun s => s) JsRegExp.exec st "#/about?x=1" =
    [Router.TInvokeDefault (Router.mkArg "/about" ∅ {[ "x" := "1" ]})] /\
  Router.invoked (Router.run_tasks (map (pair st)
      (Router.dispatch (fun s => s) JsRegExp.exec st "#/about?x=1"))
      (Router.mkWorld (LRU.create 50) [])) =
    [(9, Router.mkArg "/about" ∅ {[ "x" := "1" ]}, [])].
Proof.
  intros st.
  pose proof (default_route_on_no_match (fun s => s) JsRegExp.exec st 9 "#/about?x=1"
                eq_refl eq_refl) as [H1 [_ H3]].
  split; [exact H1|].
  exact (H3 st 9 (Router.mkWorld (LRU.create 50) []) eq_refl).
Defined.

(** C6: a scheduled frame callback first clears the selector cache and
    then calls the route or default callback: for any sequence of
    scheduled callbacks (from any number of dispatches), each run at the
    router state of its frame, each route callback and each default
    callback is invoked, in order, with its argument, and at the moment
    it starts the cache is empty. *)
Theorem callbacks_start_with_cleared_cache :
  forall (frames : list (Router.State * Router.Task)) (w : Router.World),
  Router.invoked (Router.run_tasks frames w) =
    Router.invoked w ++
    flat_map (fun '(st, t) =>
                match t with
                | Router.TInvoke cb a => [(cb, a, [])]
                | Router.TInvokeDefault a =>
                    match Router.defaultRoute st with Some f => [(f, a, [])] | None => [] end
                end) frames.
Proof.
  unfold Router.run_tasks. induction frames as [|[st t] frames IH]; intros w;
    cbn [fold_left flat_map].
  - rewrite app_nil_r. reflexivity.
  - rewrite IH, run_task_invoked, <- app_assoc. reflexivity.
Qed.

(** C9 (as the code has it): a call [$h(route, callback)] whose [route]
    is neither a string nor a function and whose [callback] is not a
    function throws; the default callback and the initialised flag are
    unchanged, the route map keeps its entries (an absent map is created
    empty), and every later dispatch schedules what it would have
    scheduled without the call.  A call whose [route] is a function does
    not throw, whatever its second argument: it installs that function
    as the default callback and changes nothing else (an absent route
    map is created empty). *)
Theorem register_rejects_bad_arguments :
  (forall (re_valid : string -> bool) (route callback : Router.jsval) (st : Router.State),
   Router.typeof route <> "string" -> Router.typeof route <> "function" ->
   Router.typeof callback <> "function" ->
   exists st' msg,
     Router.register re_valid route callback st = Router.RegThrew st' msg /\
     Router.defaultRoute st' = Router.defaultRoute st /\
     Router.initialized st' = Router.initialized st /\
     Router.routes st' = Some (match Router.routes st with Some m => m | None => [] end) /\
     forall pd re lh, Router.dispatch pd re st' lh = Router.dispatch pd re st lh) /\
  (forall (re_valid : string -> bool) (f : nat) (callback : Router.jsval) (st : Router.State),
   Router.register re_valid (Router.JFunction f) callback st =
     Router.Registered
       (Router.mkState (Some (match Router.routes st with Some m => m | None => [] end))
          (Some f) (Router.initialized st)) []).
Proof.
  split; [|reflexivity].
  intros re_valid route callback st Hs Hf Hc.
  destruct route as [| |b|n|s|f|o]; simpl in Hs, Hf;
    try (exfalso; apply Hs; reflexivity); try (exfalso; apply Hf; reflexivity);
    eexists; eexists; (split; [reflexivity|]); simpl;
    (split; [reflexivity|]); (split; [reflexivity|]); (split; [reflexivity|]);
    intros pd re lh; unfold Router.dispatch; simpl;
    destruct (Router.routes st); reflexivity.
Qed.

(** Instance of [register_rejects_bad_arguments]: [$h(42, undefined)]
    on a fresh router throws, and [$h(fn, 42)] installs [fn]. *)
Lemma register_rejects_bad_arguments_witness :
  (exists st' msg,
     Router.register JsRegExp.valid (Router.JNumber 42) Router.JUndefined
       Router.init_state = Router.RegThrew st' msg /\
     Router.defaultRoute st' = None /\ Router.initialized st' = false /\
     Router.routes st' = Some [] /\
     forall pd re lh, Router.dispatch pd re st' lh = Router.dispatch pd re Router.init_state lh) /\
  Router.register JsRegExp.valid (Router.JFunction 5) (Router.JNumber 42) Router.init_state =
    Router.Registered (Router.mkState (Some []) (Some 5) false) [].
Proof.
  split.
  - exact (proj1 register_rejects_bad_arguments JsRegExp.valid (Router.JNumber 42)
             Router.JUndefined Router.init_state
             ltac:(discriminate) ltac:(discriminate) ltac:(discriminate)).
  - exact (proj2 register_rejects_bad_arguments JsRegExp.valid 5 (Router.JNumber 42)
             Router.init_state).
Defined.

(** C9 fails as stated: a function passed as the pattern is not a
    string, yet with a non-callable second argument [$h(fn, 42)] does not
    throw; it installs [fn] as the default callback. *)
Lemma register_function_pattern_sets_default :
  Router.register JsRegExp.valid (Router.JFunction 5) (Router.JNumber 42) Router.init_state =
    Router.Registered (Router.mkState (Some []) (Some 5) false) [].
Proof. reflexivity. Qed.

Section RegisterFacts.
Import Router.
Variable re_valid : string -> bool.

Definition route_of (e : string * nat) : string * RouteDef :=
  (fst e, mkRoute (fst (compile (fst e))) (snd e) (snd (compile (fst e)))).

Lemma has_app_false (m m' : JsMap.t RouteDef) (k : string) :
  JsMap.has m k = false -> JsMap.has m' k = false -> JsMap.has (m ++ m') k = false.
Proof. unfold JsMap.has. rewrite existsb_app. intros -> ->. reflexivity. Qed.

Lemma register_new_route (p : string) (cb : nat) (st : State) :
  JsMap.has (match routes st with Some m => m | None => [] end) p = false ->
  re_valid (fst (compile p)) = true ->
  exists effs,
    register re_valid (JString p) (JFunction cb) st =
    Registered
      (mkState (Some ((match routes st with Some m => m | None => [] end) ++ [route_of (p, cb)]))
         (defaultRoute st) true) effs.
Proof.
  intros Hh Hv. unfold register, route_of. simpl.
  destruct (compile p) as [src pn] eqn:Ec. simpl in Hv |- *. rewrite Hv.
  rewrite (set_absent _ p _ Hh).
  destruct (initialized st); eexists; reflexivity.
Qed.

Lemma register_all_routes (regs : list (string * nat)) (st : State) :
  List.NoDup (map fst regs) ->
  Forall (fun e => JsMap.has (match routes st with Some m => m | None => [] end) (fst e) = false) regs ->
  Forall (fun e => re_valid (fst (compile (fst e))) = true) regs ->
  routes (register_all re_valid (map (fun e => (JString (fst e), JFunction (snd e))) regs) st) =
    match regs with
    | [] => routes st
    | _ => Some ((match routes st with Some m => m | None => [] end) ++ map route_of regs)
    end.
Proof.
  revert st. induction regs as [|[p cb] regs IH]; intros st Hnd Hh Hv;
    cbn [register_all map fst snd]; [reflexivity|].
  inversion Hnd as [|? ? Hni Hnd']; subst.
  inversion Hh as [|? ? Hh1 Hh']; subst. inversion Hv as [|? ? Hv1 Hv']; subst.
  simpl in Hh1, Hv1.
  destruct (register_new_route p cb st Hh1 Hv1) as [effs ->].
  rewrite IH; [| exact Hnd' | | exact Hv'].
  - destruct regs; simpl; [reflexivity|]. rewrite <- app_assoc. reflexivity.
  - simpl. apply List.Forall_forall. intros [p' cb'] Hin. simpl.
    apply has_app_false.
    + rewrite List.Forall_forall in Hh'. exact (Hh' _ Hin).
    + simpl. unfold JsMap.has. simpl.
      replace (String.eqb p p') with false; [reflexivity|].
      symmetry. apply String.eqb_neq. intros ->. apply Hni.
      apply (in_map fst _ (p', cb')). exact Hin.
Qed.

Lemma find_route_app_none (re : string -> string -> option JsRegExp.caps)
    (l1 l2 : JsMap.t RouteDef) (path : string) :
  Forall (fun e => re (regex (snd e)) path = None) l1 ->
  find_route re (l1 ++ l2) path = find_route re l2 path.
Proof. induction 1 as [|[k d] l1 Hd _ IH]; simpl in *; [reflexivity|]. rewrite Hd. exact IH. Qed.

End RegisterFacts.

(** C2: routes are tried in registration order and the first match wins.
    On a fresh router (whatever default callback it has), register the
    distinct patterns [pre ++ (p, cb) :: post] in that order; if no
    pattern of [pre] matches the path and [p] does, a dispatch schedules
    exactly one callback, [cb], with the parameters taken from [p]'s
    match, whatever the later patterns would do. *)
Theorem dispatch_first_registered_match_wins :
  forall (pd : string -> string) (re_valid : string -> bool)
         (re : string -> string -> option JsRegExp.caps)
         (dflt : option nat) (pre post : list (string * nat))
         (p : string) (cb : nat) (path : string) (mt : JsRegExp.caps),
  List.NoDup (map fst (pre ++ (p, cb) :: post)) ->
  Forall (fun e => re_valid (fst (Router.compile (fst e))) = true) (pre ++ (p, cb) :: post) ->
  Forall (fun e => re (fst (Router.compile (fst e))) path = None) pre ->
  re (fst (Router.compile p)) path = Some mt ->
  ~ In "?"%char (list_ascii_of_string path) -> path <> EmptyString ->
  Router.dispatch pd re
    (Router.register_all re_valid
       (map (fun e => (Router.JString (fst e), Router.JFunction (snd e))) (pre ++ (p, cb) :: post))
       (Router.mkState None dflt false))
    (String "#" path) =
  [Router.TInvoke cb (Router.mkArg path (Router.build_params (snd (Router.compile p)) mt) ∅)].
Proof.
  intros pd re_valid re dflt pre post p cb path mt Hnd Hv Hpre Hm Hq Hne.
  unfold Router.dispatch.
  rewrite (register_all_routes re_valid); [| exact Hnd | | exact Hv].
  - destruct pre as [|e pre']; simpl;
      rewrite handleHash_plain by assumption.
    + simpl. rewrite Hm. reflexivity.
    + rewrite List.Forall_cons_iff in Hpre. destruct Hpre as [He Hpre'].
      simpl. rewrite He.
      rewrite map_app, find_route_app_none.
      * simpl. rewrite Hm. reflexivity.
      * rewrite List.Forall_map. exact Hpre'.
  - apply List.Forall_forall. intros e _. reflexivity.
Qed.

(** Instance of [dispatch_first_registered_match_wins]: ["/x"] then
    ["/*"] are registered; both match [/x], and only the callback of
    ["/x"] is scheduled. *)
Lemma dispatch_first_registered_match_wins_witness :
  JsRegExp.exec (fst (Router.compile "/*")) "/x" <> None /\
  Router.dispatch (fun s => s) JsRegExp.exec
    (Router.register_all JsRegExp.valid
       (map (fun e => (Router.JString (fst e), Router.JFunction (snd e)))
          ([] ++ ("/x", 1) :: [("/*", 2)]))
       (Router.mkState None None false))
    "#/x" =
  [Router.TInvoke 1 (Router.mkArg "/x" (Router.build_params [] [Some "/x"]) ∅)].
Proof.
  split; [discriminate|].
  exact (dispatch_first_registered_match_wins (fun s => s) JsRegExp.valid JsRegExp.exec
           None [] [("/*", 2)] "/x" 1 "/x" [Some "/x"]
           ltac:(simpl; constructor; [simpl; intuition discriminate | constructor; [simpl; tauto | constructor]])
           ltac:(repeat constructor)
           ltac:(constructor)
           eq_refl
           ltac:(simpl; intuition discriminate)
           ltac:(discriminate)).
Defined.

(** C1: the pattern ["/user/:id"] compiles to the anchored expression
    [^\/user\/([^\/]+)$] with the parameter list [["id"]]; after
    registering it on a fresh router, dispatching [#/user/42] schedules
    its callback with [params = {id: "42"}]; the pattern ["/a/b"] matches
    [/a/b] but not [/a/b/c], so dispatching [#/a/b/c] with only that route
    registered schedules nothing. *)
Theorem route_params_and_anchoring :
  Router.compile "/user/:id" = ("^\/user\/([^\/]+)$", ["id"]) /\
  (forall pd : string -> string,
     Router.dispatch pd JsRegExp.exec
       (Router.register_all JsRegExp.valid
          [(Router.JString "/user/:id", Router.JFunction 1)] Router.init_state)
       "#/user/42" =
     [Router.TInvoke 1 (Router.mkArg "/user/42" {[ "id" := Some "42" ]} ∅)]) /\
  JsRegExp.exec (fst (Router.compile "/a/b")) "/a/b" = Some [Some "/a/b"] /\
  JsRegExp.exec (fst (Router.compile "/a/b")) "/a/b/c" = None /\
  (forall pd : string -> string,
     Router.dispatch pd JsRegExp.exec
       (Router.register_all JsRegExp.valid
          [(Router.JString "/a/b", Router.JFunction 2)] Router.init_state)
       "#/a/b/c" = []).
Proof.
  split; [reflexivity|]. split; [intros pd; reflexivity|].
  split; [reflexivity|]. split; [reflexivity|]. intros pd; reflexivity.
Qed.

(* ================================================================== *)
(** * Further properties of the code *)

(** ** The LRU cache *)
Section LRUMore.
Context {V : Type}.
Implicit Types (m : JsMap.t V) (c : LRU.LRUCache V).

Lemma length_delete_has m k :
  JsMap.has m k = true -> length (JsMap.delete m k) < length m.
Proof.
  unfold JsMap.delete, JsMap.has.
  induction m as [|[k' v'] m IH]; simpl; [discriminate|].
  destruct (String.eqb k' k) eqn:E; simpl.
  - intros _. pose proof (List.filter_length_le
      (fun e => negb (String.eqb (fst e) k)) m). lia.
  - intros H. specialize (IH H). lia.
Qed.

Lemma lru_set_get_any c k v :
  1 <= LRU.max c -> JsMap.get (LRU.cache (LRU.set k v c)) k = Some v.
Proof.
  intros Hmax. unfold LRU.set.
  set (m1 := if JsMap.has (LRU.cache c) k then _ else _).
  assert (Hh : JsMap.has m1 k = false).
  { unfold m1. destruct (JsMap.has (LRU.cache c) k) eqn:E; [apply has_delete | exact E]. }
  rewrite (set_absent m1 k v Hh).
  assert (Hg : JsMap.get (m1 ++ [(k, v)]) k = Some v)
    by (apply get_snoc_new, has_false_get, Hh).
  destruct (Nat.ltb _ _) eqn:Elt; cbn [LRU.cache LRU.max]; [|exact Hg].
  apply Nat.ltb_lt in Elt. unfold JsMap.size in Elt. rewrite length_app in Elt.
  clearbody m1. destruct m1 as [|[k0 v0] m1']; simpl in Elt; [lia|].
  unfold LRU.evict_first. cbn [app].
  change (JsMap.get (JsMap.delete (((k0, v0) :: m1') ++ [(k, v)]) k0) k = Some v).
  rewrite get_delete.
  destruct (String.eqb k0 k) eqn:E0; [|exact Hg].
  apply String.eqb_eq in E0. subst k0.
  simpl in Hh. rewrite String.eqb_refl in Hh. discriminate.
Qed.

End LRUMore.

(** X2: on a cache satisfying the invariant (distinct keys, at most
    [max] entries), a [get] right after [set(k, v)] returns [v], except
    with capacity 0, where it misses. *)
Theorem lru_set_then_get (V : Type) (c : LRU.LRUCache V) (k : string) (v : V) :
  lru_inv c ->
  fst (LRU.get k (LRU.set k v c)) = if Nat.eqb (LRU.max c) 0 then None else Some v.
Proof.
  intros [Hnd Hle]. destruct (Nat.eqb (LRU.max c) 0) eqn:E0.
  - apply Nat.eqb_eq in E0. rewrite E0 in Hle.
    destruct c as [mx m]; simpl in *. subst mx.
    destruct m; simpl in Hle; [|lia].
    unfold LRU.get, LRU.set, LRU.evict_first, JsMap.delete. simpl.
    rewrite String.eqb_refl. reflexivity.
  - apply Nat.eqb_neq in E0.
    rewrite (lru_get_hit _ _ _ (lru_set_get_any c k v ltac:(lia))). reflexivity.
Qed.

Lemma lru_set_then_get_witness :
  lru_inv (LRU.mkLRU 2 [("a", 1); ("b", 2)]) /\
  fst (LRU.get "c" (LRU.set "c" 3 (LRU.mkLRU 2 [("a", 1); ("b", 2)]))) = Some 3.
Proof.
  assert (Hi : lru_inv (LRU.mkLRU 2 [("a", 1); ("b", 2)])).
  { split; simpl; [|lia]. constructor; [simpl; intuition discriminate|].
    constructor; [simpl; tauto | constructor]. }
  split; [exact Hi|].
  exact (lru_set_then_get nat (LRU.mkLRU 2 [("a", 1); ("b", 2)]) "c" 3 Hi).
Defined.

(** X3: setting a key that is already cached never evicts another
    entry: the key moves to the most-recently-used end with its new
    value and the other entries keep their order. *)
Theorem lru_set_existing_no_evict (V : Type) (c : LRU.LRUCache V) (k : string) (v : V) :
  lru_inv c -> JsMap.has (LRU.cache c) k = true ->
  LRU.cache (LRU.set k v c) = JsMap.delete (LRU.cache c) k ++ [(k, v)].
Proof.
  intros [_ Hle] Hh. unfold LRU.set. rewrite Hh.
  rewrite (set_absent _ k v (has_delete _ k)).
  pose proof (length_delete_has _ _ Hh) as Hlt.
  unfold JsMap.size. rewrite length_app. simpl.
  replace (Nat.ltb (LRU.max c) (length (JsMap.delete (LRU.cache c) k) + 1)) with false
    by (symmetry; apply Nat.ltb_ge; lia).
  reflexivity.
Qed.

Lemma lru_set_existing_no_evict_witness :
  lru_inv (LRU.mkLRU 2 [("a", 1); ("b", 2)]) /\
  JsMap.has [("a", 1); ("b", 2)] "a" = true /\
  LRU.cache (LRU.set "a" 5 (LRU.mkLRU 2 [("a", 1); ("b", 2)])) = [("b", 2); ("a", 5)].
Proof.
  assert (Hi : lru_inv (LRU.mkLRU 2 [("a", 1); ("b", 2)])).
  { split; simpl; [|lia]. constructor; [simpl; intuition discriminate|].
    constructor; [simpl; tauto | constructor]. }
  split; [exact Hi|]. split; [reflexivity|].
  exact (lru_set_existing_no_evict nat (LRU.mkLRU 2 [("a", 1); ("b", 2)]) "a" 5 Hi eq_refl).
Defined.

(** X4: after [delete(k)], [get(k)] misses, and every other key keeps
    the value it had. *)
Theorem lru_delete_only_key (V : Type) (c : LRU.LRUCache V) (k : string) :
  fst (LRU.get k (LRU.delete k c)) = None /\
  (forall k', k' <> k ->
     JsMap.get (LRU.cache (LRU.delete k c)) k' = JsMap.get (LRU.cache c) k').
Proof.
  split.
  - unfold LRU.get. simpl. rewrite has_delete. reflexivity.
  - intros k' Hne. simpl. rewrite get_delete.
    destruct (String.eqb k k') eqn:E; [|reflexivity].
    apply String.eqb_eq in E. congruence.
Qed.

Lemma lru_delete_only_key_witness :
  JsMap.get (LRU.cache (LRU.delete "a" (LRU.mkLRU 2 [("a", 1); ("b", 2)]))) "b" = Some 2.
Proof.
  exact (proj2 (lru_delete_only_key nat (LRU.mkLRU 2 [("a", 1); ("b", 2)]) "a")
           "b" ltac:(discriminate)).
Defined.

(** ** The selection entry point [$], [_] and [$c]'s cache invalidation *)
Section SelectMore.
Context {Scope Elem : Type}.
Variable qsa : Scope -> string -> option (list Elem).
Variable is_el : Elem -> bool.

Lemma set_cache_self (w : Select.World Elem) : Select.set_cache w (Select.wcache w) = w.
Proof. destruct w; reflexivity. Qed.

Lemma dollar_cached_miss (q : string) (rl : bool) (sc : Scope) (w : Select.World Elem) :
  JsMap.has (LRU.cache (Select.wcache w)) q = false ->
  Select.dollar qsa is_el q rl true sc w = Select.dollar_query qsa is_el q rl true sc w.
Proof.
  intros Hh. unfold Select.dollar, LRU.get. rewrite Hh. simpl.
  rewrite set_cache_self. reflexivity.
Qed.

Lemma dollar_miss_world (q : string) (rl : bool) (sc : Scope) (w : Select.World Elem)
    (elems : list Elem) :
  JsMap.get (LRU.cache (Select.wcache w)) q = None -> qsa sc q = Some elems ->
  (elems <> [] \/ rl = true) ->
  snd (Select.dollar qsa is_el q rl true sc w) =
    Select.mkWorld (LRU.set q (Select.next_obj w) (Select.wcache w))
      (<[Select.next_obj w := List.filter is_el elems]> (Select.heap w))
      (S (Select.next_obj w)).
Proof.
  intros Hg Hq Hne. rewrite (dollar_cached_miss _ _ _ _ (get_none_has _ _ Hg)).
  unfold Select.dollar_query. rewrite Hq.
  replace (Nat.eqb (length elems) 0 && negb rl) with false.
  2:{ destruct Hne as [Hne | ->].
      - destruct elems; [congruence | reflexivity].
      - symmetry. apply andb_false_r. }
  destruct w; simpl. destruct (_ && _); reflexivity.
Qed.

End SelectMore.

(** X5: without the cache ([useCache] false), [$] neither reads nor
    writes the selector cache: the cache is unchanged afterwards, and
    the result is the same whatever the cache holds. *)
Theorem dollar_without_cache_ignores_cache (Scope Elem : Type)
    (qsa : Scope -> string -> option (list Elem)) (is_el : Elem -> bool)
    (q : string) (rl : bool) (sc : Scope) (w : Select.World Elem)
    (c : LRU.LRUCache nat) :
  Select.wcache (snd (Select.dollar qsa is_el q rl false sc w)) = Select.wcache w /\
  fst (Select.dollar qsa is_el q rl false sc (Select.set_cache w c)) =
    fst (Select.dollar qsa is_el q rl false sc w).
Proof.
  unfold Select.dollar, Select.dollar_query, Select.alloc, Select.set_cache.
  destruct (qsa sc q) as [elems|]; simpl; [|split; reflexivity].
  destruct (Nat.eqb (length elems) 0 && negb rl); simpl; [split; reflexivity|].
  destruct (Nat.eqb (length elems) 1 && negb rl); simpl; split; reflexivity.
Qed.

(** X6: with [return_list] true, an uncached [$] never returns [null]
    or a lone element: it throws exactly when [querySelectorAll] throws,
    and otherwise returns a fresh array (possibly empty) holding the
    matches that are Elements, in document order. *)
Theorem dollar_list_mode_returns_array (Scope Elem : Type)
    (qsa : Scope -> string -> option (list Elem)) (is_el : Elem -> bool)
    (q : string) (sc : Scope) (w : Select.World Elem) :
  fst (Select.dollar qsa is_el q true false sc w) =
    match qsa sc q with
    | None => Select.Throw
    | Some _ => Select.Ret (Select.RArr (Select.next_obj w))
    end /\
  (forall elems, qsa sc q = Some elems ->
     Select.heap (snd (Select.dollar qsa is_el q true false sc w)) !! Select.next_obj w
       = Some (List.filter is_el elems)).
Proof.
  split.
  - unfold Select.dollar, Select.dollar_query.
    destruct (qsa sc q) as [elems|]; simpl; [|reflexivity].
    rewrite !andb_false_r. reflexivity.
  - intros elems Hq. unfold Select.dollar, Select.dollar_query. rewrite Hq. simpl.
    rewrite !andb_false_r. simpl. apply lookup_insert_eq.
Qed.

Lemma dollar_list_mode_returns_array_witness :
  let qsa := fun (_ : unit) (_ : string) => Some [1; 2; 3] in
  let w := Select.mkWorld (LRU.mkLRU 100 []) (∅ : gmap nat (list nat)) 0 in
  Select.heap (snd (Select.dollar qsa (fun e => negb (Nat.eqb e 2)) "li" true false tt w))
    !! 0 = Some [1; 3].
Proof.
  intros qsa w.
  exact (proj2 (dollar_list_mode_returns_array unit nat qsa (fun e => negb (Nat.eqb e 2))
                  "li" tt w) [1; 2; 3] eq_refl).
Defined.

(** X7: with [return_list] false, an uncached [$] returns [null] when
    nothing matches (and then allocates and caches nothing), the match
    itself when exactly one node matches ([undefined] if that node is not
    an Element), and a fresh array when two or more match. *)
Theorem dollar_single_mode_shape (Scope Elem : Type)
    (qsa : Scope -> string -> option (list Elem)) (is_el : Elem -> bool)
    (q : string) (sc : Scope) (w : Select.World Elem) (elems : list Elem) :
  qsa sc q = Some elems ->
  fst (Select.dollar qsa is_el q false false sc w) =
    Select.Ret (match elems with
                | [] => Select.RNull
                | [e] => if is_el e then Select.RElem e else Select.RUndefined
                | _ => Select.RArr (Select.next_obj w)
                end) /\
  (elems = [] -> snd (Select.dollar qsa is_el q false false sc w) = w).
Proof.
  intros Hq. unfold Select.dollar, Select.dollar_query. rewrite Hq.
  destruct elems as [|e [|e2 rest]]; simpl.
  - split; reflexivity.
  - split; [|discriminate]. destruct (is_el e); reflexivity.
  - split; [reflexivity | discriminate].
Qed.

Lemma dollar_single_mode_shape_witness :
  let qsa := fun (_ : unit) (q : string) =>
               if String.eqb q "#app" then Some [5] else Some [] in
  let w := Select.mkWorld (LRU.mkLRU 100 []) (∅ : gmap nat (list nat)) 0 in
  fst (Select.dollar qsa (fun _ => true) "#app" false false tt w) =
    Select.Ret (Select.RElem 5).
Proof.
  intros qsa w.
  exact (proj1 (dollar_single_mode_shape unit nat qsa (fun _ => true) "#app" tt w [5]
                  eq_refl)).
Defined.

(** X8: when a cached call [$(q, rl, true)] misses and stores its
    array, the cached call for [q] that comes right after it returns that
    same array (or, in single-element mode, its only element) without
    querying the DOM: the answer is the same whatever document or scope
    that next call sees. *)
Theorem dollar_cached_result_ignores_dom (Scope Elem : Type)
    (qsa qsa' : Scope -> string -> option (list Elem)) (is_el : Elem -> bool)
    (q : string) (rl rl' : bool) (sc sc' : Scope) (w : Select.World Elem)
    (elems : list Elem) :
  qsa sc q = Some elems -> (elems <> [] \/ rl = true) ->
  JsMap.get (LRU.cache (Select.wcache w)) q = None ->
  1 <= LRU.max (Select.wcache w) ->
  fst (Select.dollar qsa' is_el q rl' true sc'
         (snd (Select.dollar qsa is_el q rl true sc w))) =
    Select.Ret (if Nat.eqb (length (List.filter is_el elems)) 1 && negb rl'
                then Select.first_or_undefined (List.filter is_el elems)
                else Select.RArr (Select.next_obj w)).
Proof.
  intros Hq Hne Hg Hmax. rewrite (dollar_miss_world qsa is_el q rl sc w elems Hg Hq Hne).
  unfold Select.dollar. cbn [Select.wcache].
  rewrite (lru_get_hit _ _ _ (lru_set_get_new _ _ _ Hg Hmax)). simpl.
  rewrite lookup_insert_eq. destruct (_ && _); reflexivity.
Qed.

Lemma dollar_cached_result_ignores_dom_witness :
  let qsa := fun (_ : unit) (_ : string) => Some [1; 2] in
  let qsa' := fun (_ : unit) (_ : string) => Some (@nil nat) in
  let w := Select.mkWorld (LRU.mkLRU 100 []) (∅ : gmap nat (list nat)) 0 in
  fst (Select.dollar qsa' (fun _ => true) ".item" false true tt
         (snd (Select.dollar qsa (fun _ => true) ".item" true true tt w))) =
    Select.Ret (Select.RArr 0).
Proof.
  intros qsa qsa' w.
  exact (dollar_cached_result_ignores_dom unit nat qsa qsa' (fun _ => true) ".item"
           true false tt tt w [1; 2] eq_refl (or_intror eq_refl) eq_refl
           ltac:(simpl; lia)).
Defined.

(** X9: when the selector has no cache entry, a selector that
    [querySelectorAll] rejects makes [$] throw, with [useCache] set or
    not, and the call changes nothing (no cache entry, no
    allocation). *)
Theorem dollar_bad_selector_no_effect (Scope Elem : Type)
    (qsa : Scope -> string -> option (list Elem)) (is_el : Elem -> bool)
    (q : string) (rl uc : bool) (sc : Scope) (w : Select.World Elem) :
  qsa sc q = None -> JsMap.get (LRU.cache (Select.wcache w)) q = None ->
  Select.dollar qsa is_el q rl uc sc w = (Select.Throw, w).
Proof.
  intros Hq Hg. destruct uc.
  - rewrite (dollar_cached_miss qsa is_el _ _ _ _ (get_none_has _ _ Hg)).
    unfold Select.dollar_query. rewrite Hq. reflexivity.
  - unfold Select.dollar, Select.dollar_query. rewrite Hq. reflexivity.
Qed.

Lemma dollar_bad_selector_no_effect_witness :
  let qsa := fun (_ : unit) (q : string) =>
               if String.eqb q "div[" then None else Some (@nil nat) in
  let w := Select.mkWorld (LRU.mkLRU 100 []) (∅ : gmap nat (list nat)) 0 in
  Select.dollar qsa (fun _ => true) "div[" false true tt w = (Select.Throw, w).
Proof.
  intros qsa w.
  exact (dollar_bad_selector_no_effect unit nat qsa (fun _ => true) "div[" false true tt w
           eq_refl eq_refl).
Defined.

(** X10: after a [$c] chain's [.html], [.text], [.append] or [.prepend]
    has run [invalidateCache], the next cached [$] call for that
    selector queries the DOM again; the cache entries of other selectors
    are untouched. *)
Theorem invalidateCache_forces_requery (Scope Elem : Type)
    (qsa : Scope -> string -> option (list Elem)) (is_el : Elem -> bool)
    (sel : string) (rl : bool) (sc : Scope) (w : Select.World Elem) :
  let w' := Select.set_cache w (Dom.invalidateCache sel (Select.wcache w)) in
  Select.dollar qsa is_el sel rl true sc w' = Select.dollar_query qsa is_el sel rl true sc w' /\
  (forall k, k <> sel ->
     JsMap.get (LRU.cache (Select.wcache w')) k = JsMap.get (LRU.cache (Select.wcache w)) k).
Proof.
  intros w'. split.
  - apply dollar_cached_miss. unfold w', Dom.invalidateCache. simpl.
    destruct (JsMap.has (LRU.cache (Select.wcache w)) sel) eqn:E; [apply has_delete | exact E].
  - intros k Hne. unfold w', Dom.invalidateCache. simpl.
    destruct (JsMap.has (LRU.cache (Select.wcache w)) sel); [|reflexivity].
    simpl. rewrite get_delete.
    destruct (String.eqb sel k) eqn:E; [|reflexivity].
    apply String.eqb_eq in E. congruence.
Qed.

Lemma invalidateCache_forces_requery_witness :
  let w := Select.mkWorld (LRU.mkLRU 100 [("#a", 0); ("#b", 1)])
             (∅ : gmap nat (list nat)) 2 in
  JsMap.get (LRU.cache (Select.wcache
    (Select.set_cache w (Dom.invalidateCache "#a" (Select.wcache w))))) "#b" = Some 1.
Proof.
  intros w.
  exact (proj2 (invalidateCache_forces_requery unit nat (fun _ _ => None) (fun _ => true)
                  "#a" false tt w) "#b" ltac:(discriminate)).
Defined.

(** X11: [_(parentSelector, tag, attrs, innerText)] appends only when
    the selector matches exactly one node, an Element, and [$t] builds
    the new element; a selector [querySelectorAll] rejects gives [$]'s
    error; no match, or a single match that is not an Element, gives the
    "Parent Node/Element Doesn't Exist" error before [$t] runs; when
    [$t] throws (an invalid tag or attribute name, a value that cannot
    be converted), that error is thrown and nothing is appended; two or
    more matches make [$] return an array, on which [appendChild]
    fails. *)
Theorem underscore_needs_one_element (Scope Elem Val : Type)
    (qsa : Scope -> string -> option (list Elem)) (is_el : Elem -> bool)
    (valid_tag valid_attr : string -> bool) (attr_value_ok string_ok : Val -> bool)
    (ps tag : string) (attrs : option (list (string * Val))) (txt : option Val)
    (doc : Scope) (w : Select.World Elem) :
  let r := fst (Dom.underscore qsa is_el valid_tag valid_attr attr_value_ok string_ok
                  ps tag attrs txt doc w) in
  let t_ok := Dom.dollar_t_ok valid_tag valid_attr attr_value_ok string_ok tag attrs txt in
  (qsa doc ps = None -> r = Dom.BadSelector) /\
  (qsa doc ps = Some [] -> r = Dom.NoParent) /\
  (forall e, qsa doc ps = Some [e] -> is_el e = false -> r = Dom.NoParent) /\
  (forall e, qsa doc ps = Some [e] -> is_el e = true ->
     r = if t_ok then Dom.Appended e else Dom.BadElement) /\
  (forall e1 e2 rest, qsa doc ps = Some (e1 :: e2 :: rest) ->
     r = if t_ok then Dom.NotANode else Dom.BadElement).
Proof.
  intros r t_ok. unfold r, t_ok, Dom.underscore, Select.dollar, Select.dollar_query.
  split; [intros Hq; rewrite Hq; reflexivity|].
  split; [intros Hq; rewrite Hq; reflexivity|].
  split; [intros e Hq He; rewrite Hq; simpl; rewrite He; reflexivity|].
  split.
  - intros e Hq He. rewrite Hq. simpl. rewrite He. reflexivity.
  - intros e1 e2 rest Hq. rewrite Hq. reflexivity.
Qed.

Lemma underscore_needs_one_element_witness :
  let qsa := fun (_ : unit) (q : string) =>
               if String.eqb q "li" then Some [1; 2] else Some [3] in
  let w := Select.mkWorld (LRU.mkLRU 100 []) (∅ : gmap nat (list nat)) 0 in
  let vt := fun t => negb (String.eqb t "1x") in
  let ok := fun (_ : string) => true in
  fst (Dom.underscore qsa (fun _ => true) vt (fun _ => true) ok ok
         "li" "p" None None tt w) = Dom.NotANode /\
  fst (Dom.underscore qsa (fun _ => true) vt (fun _ => true) ok ok
         "#app" "p" (Some [("class", "note")]) (Some "hi") tt w) = Dom.Appended 3 /\
  fst (Dom.underscore qsa (fun _ => true) vt (fun _ => true) ok ok
         "#app" "1x" None None tt w) = Dom.BadElement.
Proof.
  intros qsa w vt ok. split; [|split].
  - exact (proj2 (proj2 (proj2 (proj2 (underscore_needs_one_element unit nat string qsa
             (fun _ => true) vt (fun _ => true) ok ok "li" "p" None None tt w))))
             1 2 [] eq_refl).
  - exact (proj1 (proj2 (proj2 (proj2 (underscore_needs_one_element unit nat string qsa
             (fun _ => true) vt (fun _ => true) ok ok "#app" "p" (Some [("class", "note")])
             (Some "hi") tt w)))) 3 eq_refl eq_refl).
  - exact (proj1 (proj2 (proj2 (proj2 (underscore_needs_one_element unit nat string qsa
             (fun _ => true) vt (fun _ => true) ok ok "#app" "1x" None None tt w))))
             3 eq_refl eq_refl).
Defined.

(** ** The index step of [$_], [$s] and [$c] *)

(** X12: the index argument of [$_], [$s] and [$c]: an integer inside
    [[0, nodes.length)] selects exactly that element; an integer outside
    it throws; a non-integer inside that range, or [NaN], selects
    nothing and does not throw. *)
Theorem select_index_cases (E : Type) (nodes : list E) :
  (forall z, (0 <= z < Z.of_nat (length nodes))%Z ->
     exists e, nth_error nodes (Z.to_nat z) = Some e /\
               Dom.select_index (Some (Dom.NInt z)) nodes = Some [e]) /\
  (forall z, (z < 0 \/ Z.of_nat (length nodes) <= z)%Z ->
     Dom.select_index (Some (Dom.NInt z)) nodes = None) /\
  (forall fl, (0 <= fl < Z.of_nat (length nodes))%Z ->
     Dom.select_index (Some (Dom.NFrac fl)) nodes = Some []) /\
  Dom.select_index (Some Dom.NNaN) nodes = Some [].
Proof.
  split; [|split; [|split]].
  - intros z Hz. unfold Dom.select_index, Dom.lt_zero, Dom.ge_len, Dom.array_get.
    replace (Z.ltb z 0) with false by (symmetry; apply Z.ltb_ge; lia).
    replace (Z.leb (Z.of_nat (length nodes)) z) with false by (symmetry; apply Z.leb_gt; lia).
    replace (Z.leb 0 z) with true by (symmetry; apply Z.leb_le; lia).
    simpl. destruct (nth_error nodes (Z.to_nat z)) as [e|] eqn:En.
    + exists e. split; reflexivity.
    + apply nth_error_None in En. lia.
  - intros z Hz. unfold Dom.select_index, Dom.lt_zero, Dom.ge_len.
    destruct Hz as [Hz|Hz].
    + replace (Z.ltb z 0) with true by (symmetry; apply Z.ltb_lt; lia). reflexivity.
    + replace (Z.leb (Z.of_nat (length nodes)) z) with true by (symmetry; apply Z.leb_le; lia).
      rewrite orb_true_r. reflexivity.
  - intros fl Hf. unfold Dom.select_index, Dom.lt_zero, Dom.ge_len.
    replace (Z.ltb fl 0) with false by (symmetry; apply Z.ltb_ge; lia).
    replace (Z.leb (Z.of_nat (length nodes)) fl) with false by (symmetry; apply Z.leb_gt; lia).
    reflexivity.
  - reflexivity.
Qed.

Lemma select_index_cases_witness :
  Dom.select_index (Some (Dom.NInt 1)) [10; 20; 30] = Some [20] /\
  Dom.select_index (Some (Dom.NInt 3)) [10; 20; 30] = None /\
  Dom.select_index (Some (Dom.NFrac 1)) [10; 20; 30] = Some [].
Proof.
  destruct (select_index_cases nat [10; 20; 30]) as (H1 & H2 & H3 & _).
  split; [|split].
  - destruct (H1 1%Z ltac:(simpl; lia)) as (e & He & Hs). rewrite Hs.
    simpl in He. injection He as <-. reflexivity.
  - apply H2. simpl. lia.
  - apply H3. simpl. lia.
Defined.

(** X13: when the selector matches nothing, [$_] and [$s] return
    without doing anything, whatever the index; a [$c] chain with an
    integer index throws ("Invalid index") instead. *)
Theorem empty_selection_update_vs_chain (E : Type) :
  (forall index, Dom.update_targets ([] : list E) index = Some []) /\
  (forall z, Dom.chain_targets ([] : list E) (Some (Dom.NInt z)) = None).
Proof.
  split; [reflexivity|].
  intros z. unfold Dom.chain_targets, Dom.select_index, Dom.lt_zero, Dom.ge_len. simpl.
  destruct (Z.ltb z 0) eqn:E1; [reflexivity|].
  apply Z.ltb_ge in E1.
  replace (Z.leb (Z.of_nat 0) z) with true by (symmetry; apply Z.leb_le; lia).
  reflexivity.
Qed.

(** ** [setStylesOnEl] with a string *)
Section StyleFacts.

Lemma string_app_cons (c : ascii) (s1 s2 : string) :
  (String c s1 ++ s2)%string = String c (s1 ++ s2).
Proof. reflexivity. Qed.

Lemma list_ascii_of_string_app (s1 s2 : string) :
  list_ascii_of_string (s1 ++ s2) = list_ascii_of_string s1 ++ list_ascii_of_string s2.
Proof.
  induction s1 as [|c s1 IH]; [reflexivity|].
  rewrite string_app_cons. simpl. rewrite IH. reflexivity.
Qed.

Lemma split_first_colon (prop rest : string) :
  ~ In ":"%char (list_ascii_of_string prop) ->
  Router.split_first ":" (prop ++ String ":" rest) = Some (prop, rest).
Proof.
  induction prop as [|c prop IH]; intros Hn.
  - simpl. reflexivity.
  - rewrite string_app_cons. simpl.
    destruct (Ascii.eqb c ":") eqn:E.
    + apply Ascii.eqb_eq in E. subst c. exfalso. apply Hn. left; reflexivity.
    + rewrite IH; [reflexivity|]. intros H. apply Hn. right; exact H.
Qed.

Lemma split_first_none (s : string) :
  ~ In ":"%char (list_ascii_of_string s) -> Router.split_first ":" s = None.
Proof.
  induction s as [|c s IH]; intros Hn; [reflexivity|].
  simpl. destruct (Ascii.eqb c ":") eqn:E.
  - apply Ascii.eqb_eq in E. subst c. exfalso. apply Hn. left; reflexivity.
  - rewrite IH; [reflexivity|]. intros H. apply Hn. right; exact H.
Qed.

Lemma leading_space_app (ws v : string) :
  Forall (fun c => Dom.is_js_space c = true) (list_ascii_of_string ws) ->
  Dom.leading_space (ws ++ v) = String.length ws + Dom.leading_space v.
Proof.
  induction ws as [|c ws IH]; intros H; [reflexivity|].
  rewrite string_app_cons. simpl in H |- *. inversion H as [|? ? Hc Hws]; subst.
  rewrite Hc, IH by exact Hws. reflexivity.
Qed.

Lemma sdrop_app (ws v : string) : Dom.sdrop (String.length ws) (ws ++ v) = v.
Proof.
  induction ws as [|c ws IH]; [reflexivity|].
  rewrite string_app_cons. simpl. exact IH.
Qed.

Lemma backtrack_space_first (k : nat) (r : string) :
  Dom.dot_plus_eol (Dom.sdrop k r) = true ->
  Dom.backtrack_space k r = Some (Dom.sdrop k r).
Proof. intros H. destruct k; simpl in H |- *; rewrite H; reflexivity. Qed.

(** [sdrop k r] ends with [sdrop m r] when [k <= m]. *)
Lemma sdrop_suffix (k m : nat) (r : string) :
  k <= m -> exists x, Dom.sdrop k r = (x ++ Dom.sdrop m r)%string.
Proof.
  revert k m. induction r as [|c r IH]; intros k m Hle.
  - exists EmptyString. destruct k, m; reflexivity.
  - destruct k as [|k'].
    + destruct m as [|m'].
      * exists EmptyString. reflexivity.
      * destruct (IH 0 m' ltac:(lia)) as [x Hx]. exists (String c x).
        simpl in Hx |- *. rewrite string_app_cons. f_equal. exact Hx.
    + destruct m as [|m']; [lia|]. simpl. apply IH. lia.
Qed.

Lemma backtrack_space_none (k : nat) (r : string) (y : string) :
  (forall j, j <= k -> exists x, Dom.sdrop j r = (x ++ y)%string) ->
  existsb JsRegExp.is_line_terminator (list_ascii_of_string y) = true ->
  Dom.backtrack_space k r = None.
Proof.
  intros Hsuf Hlt.
  assert (Hno : forall j, j <= k -> Dom.dot_plus_eol (Dom.sdrop j r) = false).
  { intros j Hj. destruct (Hsuf j Hj) as [x ->]. unfold Dom.dot_plus_eol.
    rewrite list_ascii_of_string_app, forallb_app.
    replace (forallb (fun c => negb (JsRegExp.is_line_terminator c)) (list_ascii_of_string y))
      with false; [rewrite !andb_false_r; reflexivity|].
    symmetry. apply not_true_iff_false. intros Hf.
    apply existsb_exists in Hlt as [c [Hin Hc]].
    rewrite forallb_forall in Hf. specialize (Hf c Hin). rewrite Hc in Hf. discriminate. }
  induction k as [|k IH].
  - pose proof (Hno 0 (le_n 0)) as H0. simpl in H0 |- *. rewrite H0. reflexivity.
  - pose proof (Hno (S k) (le_n _)) as H0. simpl in H0 |- *. rewrite H0. apply IH.
    + intros j Hj. apply Hsuf. lia.
    + intros j Hj. apply Hno. lia.
Qed.

End StyleFacts.

(** X14: [setStylesOnEl(el, "prop:value")] schedules exactly one
    assignment [el.style[prop] = value]: the property name is the whole
    text before the first [':'] (spaces included, nothing trimmed), and
    the value is the rest after the whitespace that follows the [':'],
    when that rest is non-empty, has no line break and does not start
    with whitespace. *)
Theorem style_string_sets_one_property (prop ws v : string) :
  prop <> EmptyString -> ~ In ":"%char (list_ascii_of_string prop) ->
  Forall (fun c => Dom.is_js_space c = true) (list_ascii_of_string ws) ->
  Dom.dot_plus_eol v = true -> Dom.leading_space v = 0 ->
  Dom.setStylesOnEl_string (prop ++ ":" ++ ws ++ v) = [(prop, v)].
Proof.
  intros Hne Hn Hws Hv Hl. unfold Dom.setStylesOnEl_string, Dom.style_match.
  change (":" ++ ws ++ v)%string with (String ":" (ws ++ v)).
  rewrite (split_first_colon _ _ Hn).
  replace (String.eqb prop EmptyString) with false
    by (symmetry; apply String.eqb_neq; exact Hne).
  rewrite (leading_space_app _ _ Hws), Hl, Nat.add_0_r.
  rewrite backtrack_space_first; rewrite sdrop_app; [reflexivity | exact Hv].
Qed.

Lemma style_string_sets_one_property_witness :
  Dom.setStylesOnEl_string "color :  red" = [("color ", "red")].
Proof.
  apply (style_string_sets_one_property "color " "  " "red");
    [discriminate | simpl; intuition discriminate
    | repeat constructor | reflexivity | reflexivity].
Defined.

(** X15: [setStylesOnEl] with a string schedules nothing when the
    string has no [':'], when the text before the first [':'] is empty,
    or when the value after the first [':'] and its leading whitespace
    contains a line break. *)
Theorem style_string_ignored (s prop rest : string) :
  (~ In ":"%char (list_ascii_of_string s) -> Dom.setStylesOnEl_string s = []) /\
  Dom.setStylesOnEl_string (":" ++ rest) = [] /\
  (~ In ":"%char (list_ascii_of_string prop) ->
   existsb JsRegExp.is_line_terminator
     (list_ascii_of_string (Dom.sdrop (Dom.leading_space rest) rest)) = true ->
   Dom.setStylesOnEl_string (prop ++ ":" ++ rest) = []).
Proof.
  split; [|split].
  - intros Hn. unfold Dom.setStylesOnEl_string, Dom.style_match.
    rewrite (split_first_none _ Hn). reflexivity.
  - reflexivity.
  - intros Hn Hlt. unfold Dom.setStylesOnEl_string, Dom.style_match.
    change (":" ++ rest)%string with (String ":" rest).
    rewrite (split_first_colon _ _ Hn).
    destruct (String.eqb prop EmptyString); [reflexivity|].
    rewrite (backtrack_space_none _ _ (Dom.sdrop (Dom.leading_space rest) rest)); [reflexivity| |exact Hlt].
    intros j Hj. apply sdrop_suffix. exact Hj.
Qed.

Lemma style_string_ignored_witness :
  Dom.setStylesOnEl_string "color" = [] /\
  Dom.setStylesOnEl_string ("color: red" ++ String "010" "blue") = [].
Proof.
  split.
  - apply (proj1 (style_string_ignored "color" "" "")). simpl. intuition discriminate.
  - apply (proj2 (proj2 (style_string_ignored "" "color" (" red" ++ String "010" "blue"))));
      [simpl; intuition discriminate | reflexivity].
Defined.

(** ** The hash router's registration *)
Section RouterMore.
Context {V : Type}.
Implicit Types (m : JsMap.t V).

Lemma keys_set_has m k v :
  JsMap.has m k = true -> JsMap.keys (JsMap.set m k v) = JsMap.keys m.
Proof.
  induction m as [|[k' v'] m IH]; simpl; [discriminate|].
  destruct (String.eqb k' k) eqn:E; simpl; [reflexivity|].
  intros H. rewrite IH by exact H. reflexivity.
Qed.

Lemma get_set_same m k v : JsMap.get (JsMap.set m k v) k = Some v.
Proof.
  induction m as [|[k' v'] m IH]; simpl.
  - rewrite String.eqb_refl. reflexivity.
  - destruct (String.eqb k' k) eqn:E; simpl; rewrite E; [reflexivity | exact IH].
Qed.

Lemma get_set_other m k v q :
  q <> k -> JsMap.get (JsMap.set m k v) q = JsMap.get m q.
Proof.
  intros Hne. induction m as [|[k' v'] m IH]; simpl.
  - replace (String.eqb k q) with false; [reflexivity|].
    symmetry. apply String.eqb_neq. congruence.
  - destruct (String.eqb k' k) eqn:E; simpl.
    + apply String.eqb_eq in E. subst k'.
      replace (String.eqb k q) with false; [reflexivity|].
      symmetry. apply String.eqb_neq. congruence.
    + destruct (String.eqb k' q); [reflexivity | exact IH].
Qed.

End RouterMore.

(** X16: registering a string pattern that is already registered
    replaces that route's handler in place: the registry keeps the same
    patterns in the same order (so the route keeps its priority), the
    pattern now maps to the new handler, and every other route is
    unchanged. *)
Theorem register_same_pattern_replaces_in_place (re_valid : string -> bool)
    (p : string) (cb' : nat) (st : Router.State) (rmap : JsMap.t Router.RouteDef) :
  Router.routes st = Some rmap -> JsMap.has rmap p = true ->
  re_valid (fst (Router.compile p)) = true ->
  exists st' effs,
    Router.register re_valid (Router.JString p) (Router.JFunction cb') st =
      Router.Registered st' effs /\
    exists rmap', Router.routes st' = Some rmap' /\
      JsMap.keys rmap' = JsMap.keys rmap /\
      JsMap.get rmap' p =
        Some (Router.mkRoute (fst (Router.compile p)) cb' (snd (Router.compile p))) /\
      (forall q, q <> p -> JsMap.get rmap' q = JsMap.get rmap q).
Proof.
  intros Hr Hh Hv. unfold Router.register. rewrite Hr.
  destruct (Router.compile p) as [src pn]. simpl in Hv |- *. rewrite Hv.
  assert (Hfacts : exists rmap', Some (JsMap.set rmap p (Router.mkRoute src cb' pn)) = Some rmap' /\
      JsMap.keys rmap' = JsMap.keys rmap /\
      JsMap.get rmap' p = Some (Router.mkRoute src cb' pn) /\
      (forall q, q <> p -> JsMap.get rmap' q = JsMap.get rmap q)).
  { eexists. split; [reflexivity|]. split; [apply keys_set_has; exact Hh|].
    split; [apply get_set_same|]. intros q Hq. apply get_set_other. exact Hq. }
  destruct (Router.initialized st); (eexists _, _; split; [reflexivity|]); exact Hfacts.
Qed.

Lemma register_same_pattern_replaces_in_place_witness :
  let st := Router.register_all JsRegExp.valid
              [(Router.JString "/a", Router.JFunction 1);
               (Router.JString "/b", Router.JFunction 2)] Router.init_state in
  exists st' effs,
    Router.register JsRegExp.valid (Router.JString "/a") (Router.JFunction 3) st =
      Router.Registered st' effs /\
    exists rmap', Router.routes st' = Some rmap' /\
      JsMap.keys rmap' = ["/a"; "/b"] /\
      JsMap.get rmap' "/a" =
        Some (Router.mkRoute (fst (Router.compile "/a")) 3 (snd (Router.compile "/a"))) /\
      (forall q, q <> "/a" -> JsMap.get rmap' q =
         JsMap.get [("/a", Router.mkRoute (fst (Router.compile "/a")) 1 []);
                    ("/b", Router.mkRoute (fst (Router.compile "/b")) 2 [])] q).
Proof.
  intros st.
  exact (register_same_pattern_replaces_in_place JsRegExp.valid "/a" 3 st
           [("/a", Router.mkRoute (fst (Router.compile "/a")) 1 []);
            ("/b", Router.mkRoute (fst (Router.compile "/b")) 2 [])]
           eq_refl eq_refl eq_refl).
Defined.

(** X17: the hashchange listener and the on-ready dispatch are requested
    only once.  On an initialised router no call of [$h] requests them
    again and the router stays initialised.  On a router that is not yet
    initialised, registering a string pattern with a function handler
    requests both and initialises the router when the pattern compiles;
    when [new RegExp] rejects the compiled pattern, the call throws and
    leaves the router uninitialised with its registry unchanged, so a
    later valid registration still installs the listener. *)
Theorem hashchange_listener_added_once (re_valid : string -> bool) (st : Router.State) :
  (forall r cb, Router.initialized st = true ->
     match Router.register re_valid r cb st with
     | Router.Registered st' effs => effs = [] /\ Router.initialized st' = true
     | Router.RegThrew st' _ => Router.initialized st' = true
     end) /\
  (forall p f, Router.initialized st = false ->
     match Router.register re_valid (Router.JString p) (Router.JFunction f) st with
     | Router.Registered st' effs =>
         re_valid (fst (Router.compile p)) = true /\
         effs = [Router.AddHashchangeListener; Router.RunOnReady] /\
         Router.initialized st' = true
     | Router.RegThrew st' _ =>
         re_valid (fst (Router.compile p)) = false /\
         Router.initialized st' = false /\
         Router.routes st' = Some (match Router.routes st with Some m => m | None => [] end)
     end).
Proof.
  split.
  - intros r cb Hi. unfold Router.register.
    destruct r; try (simpl; exact Hi);
      [|split; [reflexivity | exact Hi]].
    destruct cb; try (simpl; exact Hi).
    simpl. destruct (Router.compile s) as [src pn].
    destruct (re_valid src); simpl; [rewrite Hi; split; reflexivity | exact Hi].
  - intros p f Hi. unfold Router.register. simpl.
    destruct (Router.compile p) as [src pn]. simpl.
    destruct (re_valid src); simpl; rewrite ?Hi; auto.
Qed.

Lemma hashchange_listener_added_once_witness :
  match Router.register JsRegExp.valid (Router.JString "/x") (Router.JFunction 1)
          Router.init_state with
  | Router.Registered st' effs =>
      JsRegExp.valid (fst (Router.compile "/x")) = true /\
      effs = [Router.AddHashchangeListener; Router.RunOnReady] /\
      Router.initialized st' = true
  | Router.RegThrew st' _ =>
      JsRegExp.valid (fst (Router.compile "/x")) = false /\
      Router.initialized st' = false /\
      Router.routes st' = Some []
  end.
Proof.
  exact (proj2 (hashchange_listener_added_once JsRegExp.valid Router.init_state)
           "/x" 1 eq_refl).
Defined.

(** X18: calls [$h(fn)] only install [fn] as the default callback: they
    request neither the hashchange listener nor the on-ready dispatch
    and leave the initialised flag as it was, so a router on which only
    a default callback was registered never dispatches. *)
Theorem function_patterns_never_initialize (re_valid : string -> bool)
    (calls : list (Router.jsval * Router.jsval)) (st : Router.State) :
  Forall (fun c => exists f, fst c = Router.JFunction f) calls ->
  Router.initialized (Router.register_all re_valid calls st) = Router.initialized st /\
  Forall (fun c => forall st0, exists st1,
            Router.register re_valid (fst c) (snd c) st0 = Router.Registered st1 [] /\
            Router.initialized st1 = Router.initialized st0 /\
            Router.defaultRoute st1 =
              match fst c with Router.JFunction f => Some f | _ => None end) calls.
Proof.
  intros Hall. split.
  - revert st. induction Hall as [|[r cb] calls [f Hf] _ IH]; intros st; [reflexivity|].
    simpl in Hf. subst r. cbn [Router.register_all]. simpl. rewrite IH. reflexivity.
  - eapply List.Forall_impl; [|exact Hall].
    intros [r cb] [f Hf] st0. simpl in Hf |- *. subst r.
    eexists. split; [reflexivity|]. split; reflexivity.
Qed.

Lemma function_patterns_never_initialize_witness :
  Router.initialized
    (Router.register_all JsRegExp.valid
       [(Router.JFunction 1, Router.JUndefined); (Router.JFunction 2, Router.JNull)]
       Router.init_state) = false.
Proof.
  exact (proj1 (function_patterns_never_initialize JsRegExp.valid
           [(Router.JFunction 1, Router.JUndefined); (Router.JFunction 2, Router.JNull)]
           Router.init_state
           ltac:(repeat constructor; eexists; reflexivity))).
Defined.

(** ** The redirector [$a] *)
Section RedirectFacts.
Import Redirect.

Lemma replace_all_empty fuel : replace_all fuel false EmptyString = EmptyString.
Proof. destruct fuel; reflexivity. Qed.

Lemma all_slashes_cons c r :
  all_slashes (String c r) = Ascii.eqb c "/" && all_slashes r.
Proof. reflexivity. Qed.

Lemma all_slashes_app_l s t :
  s <> EmptyString -> ends_with_slash s = false -> all_slashes (s ++ t) = false.
Proof.
  induction s as [|c r IH]; intros Hne He; [congruence|].
  change ((String c r ++ t)%string) with (String c (r ++ t)).
  rewrite all_slashes_cons.
  destruct r as [|c' r'].
  - simpl in He. rewrite He. reflexivity.
  - change (ends_with_slash (String c' r') = false) in He.
    rewrite (IH ltac:(discriminate) He). apply andb_false_r.
Qed.

Lemma ends_with_slash_tl c r : ends_with_slash (String c r) = false -> ends_with_slash r = false.
Proof. destruct r; [reflexivity | exact (fun H => H)]. Qed.

(** In the middle of the input, [replace_all] only removes a trailing
    run of ['/']. *)
Lemma replace_all_middle s post fuel :
  all_slashes post = true -> ends_with_slash s = false ->
  String.length s + 1 <= fuel -> replace_all fuel false (s ++ post) = s.
Proof.
  revert fuel. induction s as [|c r IH]; intros fuel Hp He Hf.
  - destruct fuel as [|f]; [simpl in Hf; lia|].
    destruct post as [|c0 p0]; [reflexivity|].
    change ((EmptyString ++ String c0 p0)%string) with (String c0 p0).
    cbn [replace_all]. unfold match_at. rewrite Hp.
    exact (replace_all_empty f).
  - destruct fuel as [|f]; [simpl in Hf; lia|].
    change ((String c r ++ post)%string) with (String c (r ++ post)).
    cbn [replace_all]. unfold match_at. simpl andb.
    replace (all_slashes (String c (r ++ post))) with false
      by (symmetry; exact (all_slashes_app_l (String c r) post ltac:(discriminate) He)).
    change (String c (replace_all f false (r ++ post)) = String c r).
    rewrite (IH f Hp (ends_with_slash_tl c r He) ltac:(simpl in Hf; lia)).
    reflexivity.
Qed.

Lemma drop_slashes_app pre t :
  all_slashes pre = true -> starts_with_slash t = false -> drop_slashes (pre ++ t) = t.
Proof.
  induction pre as [|c r IH]; intros Hp Ht.
  - simpl. destruct t as [|c t]; [reflexivity|]. simpl in Ht |- *. rewrite Ht. reflexivity.
  - rewrite all_slashes_cons in Hp. apply andb_prop in Hp as [Hc Hr].
    simpl. rewrite Hc. exact (IH Hr Ht).
Qed.

Lemma str_app_nil_r s : (s ++ EmptyString)%string = s.
Proof.
  induction s as [|c r IH]; [reflexivity|].
  change ((String c r ++ EmptyString)%string) with (String c (r ++ EmptyString)).
  rewrite IH. reflexivity.
Qed.

Lemma all_slashes_app s t :
  all_slashes (s ++ t) = all_slashes s && all_slashes t.
Proof.
  induction s as [|c r IH]; [reflexivity|].
  change ((String c r ++ t)%string) with (String c (r ++ t)).
  rewrite !all_slashes_cons, IH. apply andb_assoc.
Qed.

Lemma replace_all_slashes n s :
  all_slashes s = true -> replace_all (S n) true s = EmptyString.
Proof.
  intros H. destruct s as [|c r]; [reflexivity|].
  rewrite all_slashes_cons in H. apply andb_prop in H as [Hc Hr].
  apply Ascii.eqb_eq in Hc. subst c.
  assert (Hd : drop_slashes r = EmptyString).
  { rewrite <- (str_app_nil_r r) at 1. exact (drop_slashes_app r EmptyString Hr eq_refl). }
  change (replace_all n false (drop_slashes r) = EmptyString).
  rewrite Hd. apply replace_all_empty.
Qed.

Lemma length_app_str s t : String.length (s ++ t) = String.length s + String.length t.
Proof. induction s as [|c r IH]; simpl; [reflexivity | rewrite IH; reflexivity]. Qed.

(** [$a] on [pre ++ core ++ post] with runs of ['/'] around a [core]
    that neither starts nor ends with ['/']. *)
Lemma dollar_a_core pre core post :
  all_slashes pre = true -> all_slashes post = true ->
  starts_with_slash core = false -> ends_with_slash core = false ->
  dollar_a (pre ++ core ++ post) = String "/" core.
Proof.
  intros Hpre Hpost Hs He. unfold dollar_a.
  set (n := String.length (pre ++ core ++ post)).
  assert (Hn : String.length core + String.length pre + String.length post = n)
    by (unfold n; rewrite !length_app_str; lia).
  assert (Hr : replace_all (S n) true (pre ++ core ++ post) = core).
  { destruct core as [|c r].
    - (* the whole input is a run of ['/'] *)
      change ((pre ++ EmptyString ++ post)%string) with ((pre ++ post)%string).
      apply replace_all_slashes. rewrite all_slashes_app, Hpre, Hpost. reflexivity.
    - destruct pre as [|c0 p0].
      + change ((EmptyString ++ String c r ++ post)%string) with (String c (r ++ post)).
        cbn [replace_all]. unfold match_at. simpl in Hs.
        simpl slash_run. rewrite Hs. simpl andb.
        replace (all_slashes (String c (r ++ post))) with false
          by (symmetry; exact (all_slashes_app_l (String c r) post ltac:(discriminate) He)).
        change (String c (replace_all n false (r ++ post)) = String c r). f_equal.
        apply replace_all_middle; [exact Hpost | exact (ends_with_slash_tl c r He) |].
        simpl in Hn. lia.
      + rewrite all_slashes_cons in Hpre. apply andb_prop in Hpre as [Hc Hp0].
        change ((String c0 p0 ++ String c r ++ post)%string)
          with (String c0 (p0 ++ String c r ++ post)).
        cbn [replace_all]. unfold match_at.
        simpl slash_run. rewrite Hc. simpl andb. cbn iota.
        change (drop_slashes (String c0 (p0 ++ String c r ++ post))) with
          (if Ascii.eqb c0 "/" then drop_slashes (p0 ++ String c r ++ post)
           else String c0 (p0 ++ String c r ++ post)).
        rewrite Hc, (drop_slashes_app p0 _ Hp0) by exact Hs.
        apply replace_all_middle; [exact Hpost | exact He |].
        simpl in Hn |- *. lia. }
  rewrite Hr. rewrite Hs. reflexivity.
Qed.

(** Every string splits into a leading run of ['/'], a core that
    neither starts nor ends with ['/'], and a trailing run of ['/']. *)
Lemma trailing_split t :
  exists core post, t = (core ++ post)%string /\ all_slashes post = true /\
    ends_with_slash core = false /\
    (starts_with_slash t = false -> starts_with_slash core = false).
Proof.
  induction t as [|c r IH].
  - exists EmptyString, EmptyString. repeat split; reflexivity.
  - destruct IH as (core & post & -> & Hp & He & _).
    destruct (String.eqb core EmptyString && Ascii.eqb c "/") eqn:E.
    + apply andb_prop in E as [E1 E2]. apply String.eqb_eq in E1. subst core.
      exists EmptyString, (String c post).
      split; [reflexivity|]. split; [rewrite all_slashes_cons, E2; exact Hp|].
      split; [reflexivity | intros _; reflexivity].
    + exists (String c core), post.
      split; [reflexivity|]. split; [exact Hp|]. split; [|intros H; exact H].
      destruct core as [|c' core']; [exact E | exact He].
Qed.

Lemma slash_split s :
  exists pre core post, s = (pre ++ core ++ post)%string /\
    all_slashes pre = true /\ all_slashes post = true /\
    starts_with_slash core = false /\ ends_with_slash core = false.
Proof.
  induction s as [|c r IH].
  - exists EmptyString, EmptyString, EmptyString. repeat split; reflexivity.
  - destruct (Ascii.eqb c "/") eqn:Ec.
    + destruct IH as (pre & core & post & -> & Hpre & Hpost & Hs & He).
      exists (String c pre), core, post.
      split; [reflexivity|]. split; [rewrite all_slashes_cons, Ec; exact Hpre|].
      split; [exact Hpost|]. split; [exact Hs | exact He].
    + destruct (trailing_split (String c r)) as (core & post & Heq & Hp & He & Hs).
      exists EmptyString, core, post.
      split; [exact Heq|]. split; [reflexivity|]. split; [exact Hp|].
      split; [apply Hs; exact Ec | exact He].
Qed.

End RedirectFacts.

(** X19: [$a(route)] strips every leading and every trailing ['/'] from
    [route] and puts back exactly one leading ['/']: for a [core] that
    neither starts nor ends with ['/'], any number of slashes around it
    give the hash ['/' + core]; a route made only of slashes, or the
    empty route, gives ['/']. *)
Theorem dollar_a_strips_slashes (pre core post : string) :
  Redirect.all_slashes pre = true -> Redirect.all_slashes post = true ->
  Redirect.starts_with_slash core = false -> Redirect.ends_with_slash core = false ->
  Redirect.dollar_a (pre ++ core ++ post) = String "/" core.
Proof. exact (dollar_a_core pre core post). Qed.

Lemma dollar_a_strips_slashes_witness :
  Redirect.dollar_a "///user//42//" = "/user//42".
Proof.
  exact (dollar_a_strips_slashes "///" "user//42" "//" eq_refl eq_refl eq_refl eq_refl).
Defined.

(** X20: the hash [$a] sets always starts with exactly one ['/'] and
    has no trailing ['/'] unless it is ["/"] itself; redirecting again
    to that hash sets the same hash. *)
Theorem dollar_a_idempotent (route : string) :
  exists core, Redirect.dollar_a route = String "/" core /\
    Redirect.starts_with_slash core = false /\ Redirect.ends_with_slash core = false /\
    Redirect.dollar_a (Redirect.dollar_a route) = Redirect.dollar_a route.
Proof.
  destruct (slash_split route) as (pre & core & post & -> & Hpre & Hpost & Hs & He).
  exists core. rewrite (dollar_a_core pre core post Hpre Hpost Hs He).
  repeat split; try assumption.
  rewrite <- (str_app_nil_r core) at 1 2.
  change (String "/" (core ++ EmptyString)) with (("/" ++ core ++ EmptyString)%string).
  rewrite (dollar_a_core "/" core EmptyString eq_refl eq_refl Hs He).
  rewrite str_app_nil_r. reflexivity.
Qed.

(** ** [RESTAdapter] and [RESTClient] *)
Section RestFacts.
Import Redirect.

Lemma trim_trailing_slashes_app base post :
  ends_with_slash base = false -> all_slashes post = true ->
  Rest.trim_trailing_slashes (base ++ post) = base.
Proof.
  intros He Hp. induction base as [|c r IH].
  - destruct post as [|c0 p0]; [reflexivity|].
    change ((EmptyString ++ String c0 p0)%string) with (String c0 p0).
    simpl Rest.trim_trailing_slashes. rewrite Hp. reflexivity.
  - change ((String c r ++ post)%string) with (String c (r ++ post)).
    cbn [Rest.trim_trailing_slashes].
    replace (all_slashes (String c (r ++ post))) with false
      by (symmetry; exact (all_slashes_app_l (String c r) post ltac:(discriminate) He)).
    rewrite (IH (ends_with_slash_tl c r He)). reflexivity.
Qed.

Context {V E : Type}.
Implicit Types (fetch : nat -> @Rest.fetch_outcome V E).

(** Every attempt from [a] on fails without an abort. *)
Lemma attempts_all_fail raw fetch errs k :
  forall a lastErr, 1 <= k ->
  (forall i, a <= i < a + k -> Rest.attempt_result raw fetch i = inr (false, errs i)) ->
  Rest.attempts raw fetch k a lastErr =
    (inr (errs (a + k - 1)),
     flat_map (fun i => Rest.fetch_events fetch i ++ [Rest.Wait i]) (seq a (k - 1))
       ++ Rest.fetch_events fetch (a + k - 1)).
Proof.
  induction k as [|k IH]; intros a lastErr Hk Hf; [lia|].
  cbn [Rest.attempts]. rewrite (Hf a ltac:(lia)).
  destruct k as [|k].
  - replace (a + 1 - 1) with a by lia. simpl. rewrite !app_nil_r. reflexivity.
  - rewrite (IH (S a) (errs a) ltac:(lia) ltac:(intros i Hi; apply Hf; lia)).
    replace (S a + S k - 1) with (a + S (S k) - 1) by lia.
    replace (S (S k) - 1) with (S k) by lia. replace (S k - 1) with k by lia.
    cbn [seq flat_map]. rewrite <- !app_assoc. reflexivity.
Qed.

(** The attempts from [a0] before [a] fail without an abort and attempt
    [a] succeeds or aborts. *)
Lemma attempts_stop raw fetch a (stop : @Rest.result V + @Rest.error E) :
  forall k a0 lastErr, a0 <= a < a0 + k ->
  (forall i, a0 <= i < a -> exists e, Rest.attempt_result raw fetch i = inr (false, e)) ->
  match Rest.attempt_result raw fetch a with
  | inl r => stop = inl r
  | inr (true, _) => stop = inr Rest.ErrTimeout
  | inr (false, _) => False
  end ->
  Rest.attempts raw fetch k a0 lastErr =
    (stop,
     flat_map (fun i => Rest.fetch_events fetch i ++ [Rest.Wait i]) (seq a0 (a - a0))
       ++ Rest.fetch_events fetch a).
Proof.
  intros k. induction k as [|k IH]; intros a0 lastErr Hr Hbefore Ha; [lia|].
  cbn [Rest.attempts].
  destruct (Nat.eq_dec a0 a) as [->|Hne].
  - replace (a - a) with 0 by lia.
    revert Ha. destruct (Rest.attempt_result raw fetch a) as [r|[[|] e]]; intros Ha;
      [subst stop; reflexivity | subst stop; reflexivity | contradiction].
  - destruct (Hbefore a0 ltac:(lia)) as [e He]. rewrite He.
    destruct k as [|k]; [lia|].
    rewrite (IH (S a0) e ltac:(lia) ltac:(intros i Hi; apply Hbefore; lia) Ha).
    replace (a - a0) with (S (a - S a0)) by lia.
    cbn [seq flat_map]. rewrite <- !app_assoc. reflexivity.
Qed.

Lemma flat_map_seq_ext {A} (f g : nat -> list A) (start len : nat) :
  (forall i, start <= i < start + len -> f i = g i) ->
  flat_map f (seq start len) = flat_map g (seq start len).
Proof.
  revert start. induction len as [|len IH]; intros start H; [reflexivity|].
  cbn [seq flat_map]. rewrite (H start ltac:(lia)), (IH (S start)); [reflexivity|].
  intros i Hi. apply H. lia.
Qed.

(** Only an attempt that calls [fetch] can succeed. *)
Lemma attempt_success_sent raw fetch a r :
  Rest.attempt_result raw fetch a = inl r -> Rest.fetch_events fetch a = [Rest.Fetch a].
Proof.
  unfold Rest.attempt_result, Rest.fetch_events.
  destruct (fetch a) as [ab e|ok st b|ab e]; [discriminate | reflexivity | discriminate].
Qed.

End RestFacts.

(** X21: the URL [RESTAdapter] requests is the base URL without its
    trailing ['/'] run, one ['/'], and the endpoint without its leading
    ['/'] run: extra slashes on either side of the join never double
    up, and a missing one is added. *)
Theorem join_url_single_slash (base endpoint post pre : string) :
  Redirect.ends_with_slash base = false -> Redirect.all_slashes post = true ->
  Redirect.starts_with_slash endpoint = false -> Redirect.all_slashes pre = true ->
  Rest.join_url (base ++ post) (pre ++ endpoint) = (base ++ "/" ++ endpoint)%string.
Proof.
  intros He Hpost Hs Hpre. unfold Rest.join_url.
  rewrite (trim_trailing_slashes_app base post He Hpost),
          (drop_slashes_app pre endpoint Hpre Hs).
  reflexivity.
Qed.

Lemma join_url_single_slash_witness :
  Rest.join_url "https://api.example.com/v1//" "///users" =
    "https://api.example.com/v1/users".
Proof.
  exact (join_url_single_slash "https://api.example.com/v1" "users" "//" "///"
           eq_refl eq_refl eq_refl eq_refl).
Defined.

(** X22: [adapter.get(endpoint, params, opts)] passes [RESTClient] the
    [params] argument, whatever [params] the adapter's defaults or
    [opts] hold; every other option comes from [opts] when [opts] has
    it and from the adapter's defaults otherwise. *)
Theorem adapter_get_options (defaultOptions opts : Rest.obj) (params : Rest.value) :
  Rest.prop (Rest.get_options defaultOptions opts params) "params" = params /\
  (forall k, k <> "params" ->
     Rest.prop (Rest.get_options defaultOptions opts params) k =
       match opts !! k with Some v => v | None => Rest.prop defaultOptions k end).
Proof.
  unfold Rest.get_options, Rest.spread, Rest.prop. unfold Rest.obj in *. split.
  - rewrite (lookup_union_Some_l _ _ _ params); [reflexivity|].
    apply lookup_insert_eq.
  - intros k Hk. destruct (opts !! k) as [v|] eqn:E.
    + rewrite (lookup_union_Some_l _ _ _ v); [reflexivity|].
      rewrite lookup_insert_ne by congruence. exact E.
    + rewrite lookup_union_r; [reflexivity|].
      rewrite lookup_insert_ne by congruence. exact E.
Qed.

Lemma adapter_get_options_witness :
  Rest.prop (Rest.get_options
               (<["timeout" := Rest.VNumber 5]> (<["params" := Rest.VObject 1]> ∅))
               ∅ (Rest.VObject 2)) "timeout" = Rest.VNumber 5.
Proof.
  rewrite (proj2 (adapter_get_options
                    (<["timeout" := Rest.VNumber 5]> (<["params" := Rest.VObject 1]> ∅))
                    ∅ (Rest.VObject 2)) "timeout" ltac:(discriminate)).
  reflexivity.
Defined.

(** X23: when every attempt fails without an abort (a response that is
    not ok, a rejected [fetch], an unreadable body, or a request that
    could not be built), [RESTClient] makes exactly [maxAttempts]
    attempts, each calling [fetch] unless building its request threw,
    waits after each attempt but the last, and throws the error of the
    last attempt.  When every request can be built, [fetch] is called
    exactly [maxAttempts] times. *)
Theorem rest_all_attempts_fail {V E : Type} (raw : bool) (retry : Rest.retry_opt)
    (fetch : nat -> @Rest.fetch_outcome V E) (errs : nat -> @Rest.error E) :
  1 <= Z.to_nat (Rest.max_attempts retry) ->
  (forall i, 1 <= i <= Z.to_nat (Rest.max_attempts retry) ->
     Rest.attempt_result raw fetch i = inr (false, errs i)) ->
  Rest.RESTClient raw retry fetch =
    (inr (errs (Z.to_nat (Rest.max_attempts retry))),
     flat_map (fun i => Rest.fetch_events fetch i ++ [Rest.Wait i])
       (seq 1 (Z.to_nat (Rest.max_attempts retry) - 1))
       ++ Rest.fetch_events fetch (Z.to_nat (Rest.max_attempts retry))) /\
  ((forall i, 1 <= i <= Z.to_nat (Rest.max_attempts retry) ->
      Rest.fetch_events fetch i = [Rest.Fetch i]) ->
   Rest.RESTClient raw retry fetch =
    (inr (errs (Z.to_nat (Rest.max_attempts retry))),
     flat_map (fun i => [Rest.Fetch i; Rest.Wait i])
       (seq 1 (Z.to_nat (Rest.max_attempts retry) - 1))
       ++ [Rest.Fetch (Z.to_nat (Rest.max_attempts retry))])).
Proof.
  intros HN Hf.
  assert (H1 : Rest.RESTClient raw retry fetch =
    (inr (errs (Z.to_nat (Rest.max_attempts retry))),
     flat_map (fun i => Rest.fetch_events fetch i ++ [Rest.Wait i])
       (seq 1 (Z.to_nat (Rest.max_attempts retry) - 1))
       ++ Rest.fetch_events fetch (Z.to_nat (Rest.max_attempts retry)))).
  { unfold Rest.RESTClient.
    rewrite (attempts_all_fail raw fetch errs _ 1 Rest.ErrNull HN
               ltac:(intros i Hi; apply Hf; lia)).
    replace (1 + Z.to_nat (Rest.max_attempts retry) - 1)
      with (Z.to_nat (Rest.max_attempts retry)) by lia.
    reflexivity. }
  split; [exact H1|].
  intros Hs. rewrite H1, (Hs (Z.to_nat (Rest.max_attempts retry)) ltac:(lia)).
  rewrite (flat_map_seq_ext (fun i => Rest.fetch_events fetch i ++ [Rest.Wait i])
             (fun i => [Rest.Fetch i; Rest.Wait i]) 1
             (Z.to_nat (Rest.max_attempts retry) - 1)); [reflexivity|].
  intros i Hi. rewrite (Hs i ltac:(lia)). reflexivity.
Qed.

(** Instance of [rest_all_attempts_fail]: with [retry = {attempts: 3}],
    a server answering 503 gets three requests; a cyclic body gets
    none, only the waits, and the call throws the serialisation
    error. *)
Lemma rest_all_attempts_fail_witness :
  Rest.RESTClient (V:=unit) (E:=unit) false (Rest.RetryObject 3)
    (fun _ => Rest.FResp false 503 (Rest.BodyOk tt)) =
  (inr (Rest.ErrHttp 503),
   [Rest.Fetch 1; Rest.Wait 1; Rest.Fetch 2; Rest.Wait 2; Rest.Fetch 3]) /\
  Rest.RESTClient (V:=unit) (E:=unit) false (Rest.RetryObject 3)
    (fun _ => Rest.FNotSent false tt) =
  (inr (Rest.ErrThrown tt), [Rest.Wait 1; Rest.Wait 2]).
Proof.
  split.
  - exact (proj2 (rest_all_attempts_fail false (Rest.RetryObject 3)
             (fun _ => Rest.FResp false 503 (Rest.BodyOk tt)) (fun _ => Rest.ErrHttp 503)
             ltac:(vm_compute; lia) (fun i _ => eq_refl)) (fun i _ => eq_refl)).
  - exact (proj1 (rest_all_attempts_fail false (Rest.RetryObject 3)
             (fun _ => Rest.FNotSent false tt) (fun _ => Rest.ErrThrown tt)
             ltac:(vm_compute; lia) (fun i _ => eq_refl))).
Defined.

(** X24: [RESTClient] stops at the first attempt that succeeds or is
    aborted: if attempts [1 .. a-1] fail without an abort and attempt
    [a] (within [maxAttempts]) resolves, the call resolves to that
    attempt's result, and that attempt called [fetch]; if attempt [a] is
    aborted, it throws ['Timeout'] without retrying.  Either way no
    attempt after [a] is made, and the attempts up to [a] call [fetch]
    (unless building their request threw), with the back-off waits
    between them. *)
Theorem rest_stops_at_success_or_abort {V E : Type} (raw : bool) (retry : Rest.retry_opt)
    (fetch : nat -> @Rest.fetch_outcome V E) (a : nat) :
  1 <= a <= Z.to_nat (Rest.max_attempts retry) ->
  (forall i, 1 <= i < a -> exists e, Rest.attempt_result raw fetch i = inr (false, e)) ->
  let before :=
    flat_map (fun i => Rest.fetch_events fetch i ++ [Rest.Wait i]) (seq 1 (a - 1)) in
  (forall r, Rest.attempt_result raw fetch a = inl r ->
     Rest.RESTClient raw retry fetch = (inl r, before ++ [Rest.Fetch a])) /\
  (forall e, Rest.attempt_result raw fetch a = inr (true, e) ->
     Rest.RESTClient raw retry fetch =
       (inr Rest.ErrTimeout, before ++ Rest.fetch_events fetch a)).
Proof.
  intros Ha Hbefore before. split.
  - intros r Hr. unfold Rest.RESTClient.
    rewrite <- (attempt_success_sent raw fetch a r Hr).
    apply (attempts_stop raw fetch a (inl r)); [lia | exact Hbefore | rewrite Hr; reflexivity].
  - intros e Hr. unfold Rest.RESTClient.
    apply (attempts_stop raw fetch a (inr Rest.ErrTimeout));
      [lia | exact Hbefore | rewrite Hr; reflexivity].
Qed.

Lemma rest_stops_at_success_or_abort_witness :
  Rest.RESTClient (V:=nat) (E:=unit) false (Rest.RetryNumber 5)
    (fun i => if Nat.ltb i 3 then Rest.FReject false tt else Rest.FResp true 200 (Rest.BodyOk 42)) =
  (inl (Rest.Json 42),
   [Rest.Fetch 1; Rest.Wait 1; Rest.Fetch 2; Rest.Wait 2; Rest.Fetch 3]).
Proof.
  exact (proj1 (rest_stops_at_success_or_abort false (Rest.RetryNumber 5)
           (fun i => if Nat.ltb i 3 then Rest.FReject false tt
                     else Rest.FResp true 200 (Rest.BodyOk 42)) 3
           ltac:(vm_compute; lia)
           ltac:(intros i Hi; exists (Rest.ErrThrown tt);
                 destruct i as [|[|[|i]]]; [lia | reflexivity | reflexivity | lia]))
           (Rest.Json 42) eq_refl).
Defined.

(** X25: a negative [retry] count leaves no attempt: [RESTClient]
    never calls [fetch] and throws its initial [lastErr], [null]. *)
Theorem rest_negative_retry_throws_null {V E : Type} (raw : bool) (n : Z)
    (fetch : nat -> @Rest.fetch_outcome V E) :
  (n < 0)%Z -> Rest.RESTClient raw (Rest.RetryNumber n) fetch = (inr Rest.ErrNull, []).
Proof.
  intros Hn. unfold Rest.RESTClient. cbn [Rest.max_attempts].
  replace (Z.to_nat (n + 1)) with 0 by lia. reflexivity.
Qed.

Lemma rest_negative_retry_throws_null_witness :
  Rest.RESTClient (V:=unit) (E:=unit) false (Rest.RetryNumber (-2))
    (fun _ => Rest.FResp true 200 (Rest.BodyOk tt)) = (inr Rest.ErrNull, []).
Proof.
  exact (rest_negative_retry_throws_null false (-2)
           (fun _ => Rest.FResp true 200 (Rest.BodyOk tt)) ltac:(lia)).
Defined.


(** ** [Logger] *)

(** X26: a logger's output is cut off by severity: whenever a
    non-verbose logger writes messages of one method, it also writes
    those of every more severe method ([error] before [warn] before
    [info] before [debug]); a verbose logger writes all four whatever
    its level. *)
Theorem logger_severity_threshold (level : option string) :
  (forall m1 m2,
     Log.le (Log.levels (Log.method_name m1)) (Log.levels (Log.method_name m2)) = true ->
     Log.emits false level m2 = true -> Log.emits false level m1 = true) /\
  (forall m, Log.emits true level m = true).
Proof.
  split.
  - intros m1 m2. unfold Log.emits. rewrite !orb_false_r.
    destruct (Log.current _) as [n| |];
      destruct m1, m2; cbn -[Nat.leb]; intros H1 H2; try discriminate;
      apply Nat.leb_le in H1; apply Nat.leb_le in H2; apply Nat.leb_le; lia.
  - intros m. unfold Log.emits. apply orb_true_r.
Qed.

Lemma logger_severity_threshold_witness :
  Log.emits false (Some "warn") Log.MError = true.
Proof.
  exact (proj1 (logger_severity_threshold (Some "warn")) Log.MError Log.MWarn
           eq_refl eq_refl).
Defined.

(** X27: a [level] that is not one of the four names (the lookup is
    case-sensitive, so ["DEBUG"] is not one) makes a non-verbose logger
    behave as with the default level ["info"]; a [level] that names a
    member of [Object.prototype], such as ["toString"], silences a
    non-verbose logger completely, [error] included. *)
Theorem logger_unknown_and_inherited_levels (l : string) :
  (Log.levels l = Log.LUndefined ->
     forall m, Log.emits false (Some l) m = Log.emits false None m) /\
  (In l Log.object_prototype_members -> forall m, Log.emits false (Some l) m = false).
Proof.
  split.
  - intros Hl m. unfold Log.emits, Log.current. rewrite Hl. reflexivity.
  - intros Hin m.
    assert (Hl : Log.levels l = Log.LInherited).
    { simpl in Hin. repeat (destruct Hin as [<-|Hin]; [reflexivity|]). contradiction. }
    unfold Log.emits, Log.current. rewrite Hl. destruct m; reflexivity.
Qed.

Lemma logger_unknown_and_inherited_levels_witness :
  Log.emits false (Some "DEBUG") Log.MDebug = false /\
  Log.emits false (Some "toString") Log.MError = false.
Proof.
  split.
  - rewrite (proj1 (logger_unknown_and_inherited_levels "DEBUG") eq_refl Log.MDebug).
    reflexivity.
  - exact (proj2 (logger_unknown_and_inherited_levels "toString")
             ltac:(simpl; tauto) Log.MError).
Defined.
